(** * State-of-Quantum: gate-construction code of the five algorithm classes

    A shallow embedding of the Python classes [BernsteinVazirani],
    [DeutschJozsa], [QuantumFourierTransform], [QuantumPhaseEstimation] and
    [SimonProblem].  The circuit library is used opaquely by the source, so a
    circuit object is modelled as the log of the gate calls made on it; the
    library's own validation, simulators and backends are outside the model,
    and so is the machine's memory.  The interpreter's recursion limit is
    modelled where the source recurses, in
    [QuantumFourierTransform.rotations]. *)

From Stdlib Require Import ZArith Lia List String Ascii.
From Stdlib Require QArith.
From stdpp Require Import base tactics option list list_numbers gmap strings.

Open Scope Z_scope.

(** ** Python exceptions and results *)

Inductive exn : Type :=
| AssertionError (msg : string)
| AttributeError (attr : string)
| IndexError
| ValueError
| TypeError
| OverflowError
| RecursionError.

Inductive result (A : Type) : Type :=
| Ok (a : A)
| Raise (e : exn).
Arguments Ok {A} a.
Arguments Raise {A} e.

(** ** Angles

    Rotation angles are kept as the expressions the source writes; their
    floating-point values are not computed. *)

Inductive angle : Type :=
| PiOver2Pow (k : Z)        (* np.pi / 2**k *)
| NegPiOver2Pow (k : Z)     (* -math.pi / float(2**k) *)
| TwoPiTimes (theta : QArith_base.Q).  (* 2 * math.pi * theta *)

(** Converting the Python int [2**k] to a float succeeds up to [2**1023];
    from [2**1024] on CPython raises OverflowError ("int too large to convert
    to float").  Both [np.pi / 2**k] and [float(2**k)] perform it. *)
Definition float_max_exp : Z := 1023.

Definition pi_over_2pow (k : Z) : result angle :=
  if k <=? float_max_exp then Ok (PiOver2Pow k) else Raise OverflowError.

Definition neg_pi_over_2pow (k : Z) : result angle :=
  if k <=? float_max_exp then Ok (NegPiOver2Pow k) else Raise OverflowError.

(** ** Circuits: the log of gate calls *)

Inductive instruction : Type :=
| H (q : Z)
| X (q : Z)
| Zg (q : Z)
| Ig (q : Z)
| CX (control target : Z)
| CP (theta : angle) (control target : Z)
| SWAP (a b : Z)
| Barrier
| Measure (q c : Z).

Record QuantumCircuit : Type := mkCircuit {
  num_qubits : Z;
  num_clbits : Z;
  data : list instruction
}.

(** A gate object made by [circuit.to_gate()]. *)
Record Gate : Type := mkGate {
  gate_name : string;
  gate_num_qubits : Z;
  definition : list instruction
}.

(** ** The object store

    Circuit objects are mutable and shared by reference: [heap] holds them,
    a reference is an index into it.  [np_random] is the state of numpy's
    global random generator, numbered by an integer; the generator's
    functions themselves belong to the library and are parameters of the
    code that calls them. *)

Abbreviation ref := nat.

Record world : Type := mkWorld {
  heap : list QuantumCircuit;
  np_random : Z
}.

(** Python values held by instance attributes. *)
Inductive value : Type :=
| VInt (z : Z)
| VStr (s : string)
| VAngle (a : angle)
| VRef (r : ref).

(** An instance is its attribute dictionary. *)
Abbreviation instance := (gmap string value).

(** ** The state and exception monad *)

Definition Py (A : Type) : Type := world -> result A * world.

Definition ret {A} (a : A) : Py A := fun w => (Ok a, w).

Definition bind {A B} (m : Py A) (k : A -> Py B) : Py B :=
  fun w => match m w with
           | (Ok a, w') => k a w'
           | (Raise e, w') => (Raise e, w')
           end.

Definition lift {A} (r : result A) : Py A := fun w => (r, w).

Definition raise {A} (e : exn) : Py A := lift (Raise e).

Notation "x <~ m ;; k" := (bind m (fun x => k))
  (at level 100, m at next level, right associativity).
Notation "m ;;; k" := (bind m (fun _ => k))
  (at level 100, right associativity).

(** [for x in l: body x] *)
Fixpoint for_each {A} (l : list A) (body : A -> Py unit) : Py unit :=
  match l with
  | [] => ret tt
  | x :: l' => body x ;;; for_each l' body
  end.

(** [range(n)]: empty when [n <= 0]. *)
Definition range (n : Z) : list Z := seqZ 0 n.

(** [self.name] *)
Definition getattr (self : instance) (name : string) : result value :=
  match self !! name with
  | Some v => Ok v
  | None => Raise (AttributeError name)
  end.

Definition as_int (v : value) : result Z :=
  match v with VInt z => Ok z | _ => Raise TypeError end.
Definition as_str (v : value) : result string :=
  match v with VStr s => Ok s | _ => Raise TypeError end.
Definition as_angle (v : value) : result angle :=
  match v with VAngle a => Ok a | _ => Raise TypeError end.
Definition as_ref (v : value) : result ref :=
  match v with VRef r => Ok r | _ => Raise TypeError end.

Definition rbind {A B} (r : result A) (k : A -> result B) : result B :=
  match r with Ok a => k a | Raise e => Raise e end.

Definition attr_int (self : instance) (name : string) : Py Z :=
  lift (rbind (getattr self name) as_int).
Definition attr_str (self : instance) (name : string) : Py string :=
  lift (rbind (getattr self name) as_str).
Definition attr_angle (self : instance) (name : string) : Py angle :=
  lift (rbind (getattr self name) as_angle).
Definition attr_ref (self : instance) (name : string) : Py ref :=
  lift (rbind (getattr self name) as_ref).

(** [qiskit.QuantumCircuit(nq, nc)]: a fresh, empty circuit object.  The
    library rejects a negative register size; that check is the library's
    and is not modelled, so what is stated of a constructed circuit is
    stated for sizes from 0 on. *)
Definition new_circuit (nq nc : Z) : Py ref :=
  fun w => (Ok (length (heap w)),
            mkWorld (heap w ++ [mkCircuit nq nc []]) (np_random w)).

Definition append_instruction (g : instruction) (c : QuantumCircuit)
  : QuantumCircuit :=
  mkCircuit (num_qubits c) (num_clbits c) (data c ++ [g]).

(** A gate call on the circuit object [c]: appends to its log in place. *)
Definition emit (c : ref) (g : instruction) : Py unit :=
  fun w => (Ok tt, mkWorld (alter (append_instruction g) c (heap w))
                           (np_random w)).

(** The gates of the circuit object [c] in world [w]. *)
Definition gates_of (w : world) (c : ref) : list instruction :=
  match heap w !! c with
  | Some circ => data circ
  | None => []
  end.

(** [l[i]] on a Python sequence: a negative index counts from the end, an
    index out of range raises IndexError. *)
Definition getitem {A} (l : list A) (i : Z) : result A :=
  let j := if i <? 0 then Z.of_nat (length l) + i else i in
  if j <? 0 then Raise IndexError
  else match l !! Z.to_nat j with
       | Some x => Ok x
       | None => Raise IndexError
       end.

(** The characters of a Python str. *)
Definition chars (s : string) : list ascii := list_ascii_of_string s.

(** [len(s)] *)
Definition len (s : string) : Z := Z.of_nat (length (chars s)).

(** One use of numpy's global generator: [f] maps the generator state to the
    drawn value and the next state. *)
Definition draw {A} (f : Z -> A * Z) : Py A :=
  fun w => let '(a, g) := f (np_random w) in (Ok a, mkWorld (heap w) g).

(** ** Cloud backends

    What the filter passed to [provider.backends(filters=...)] reads of a
    backend [x]: [x.configuration().n_qubits], [x.configuration().simulator]
    and [x.status().operational]. *)
Record backend : Type := mkBackend {
  n_qubits : Z;
  simulator : bool;
  operational : bool
}.

(** Python's [a and b] on booleans: [b] is evaluated only when [a] holds. *)
Definition and_then (a : bool) (b : result bool) : result bool :=
  if a then b else Ok false.

(** [provider.backends(filters=f)]: the library applies the callable to each
    of its backends and keeps those it accepts; an exception raised by the
    callable propagates. *)
Fixpoint backends (filters : backend -> result bool) (l : list backend)
  : result (list backend) :=
  match l with
  | [] => Ok []
  | x :: l' =>
      rbind (filters x) (fun keep =>
      rbind (backends filters l') (fun rest =>
      Ok (if keep then x :: rest else rest)))
  end.

(** [for x in l] threading the loop's local variables [s]. *)
Fixpoint for_fold {A S} (l : list A) (s : S) (body : A -> S -> Py S) : Py S :=
  match l with
  | [] => ret s
  | x :: l' => s' <~ body x s ;; for_fold l' s' body
  end.

(** What [DeutschJozsa.algorithm] puts on its circuit: plain instructions,
    and the oracle gate appended on a list of qubits by
    [circuit.append(oracle, qargs)]. *)
Inductive operation : Type :=
| Plain (g : instruction)
| AppendGate (gate : Gate) (qargs : list Z).

(** ** Deutsch-Jozsa: DJ_qiskit.py *)

Module DeutschJozsa.

(** [__init__(self, type, num_bits)]; the [assert] statement is taken as
    enabled (the interpreter is not run with [-O]). *)
Definition init (type : string) (num_bits : Z) : result instance :=
  if bool_decide (type = "constant") || bool_decide (type = "balanced") then
    Ok (<["num_bits" := VInt num_bits]> (<["type" := VStr type]> ∅))
  else
    Raise (AssertionError
             ("type should be either constant or balanced. " +:+ type
              +:+ " not allowed")).

(** Binary digits of a positive number, most significant first. *)
Fixpoint pos_bin (p : positive) (acc : list ascii) : list ascii :=
  match p with
  | xH => "1"%char :: acc
  | xO p' => pos_bin p' ("0"%char :: acc)
  | xI p' => pos_bin p' ("1"%char :: acc)
  end.

(** [format(b, '0' + str(width) + 'b')]: binary, sign first, zero-padded
    to [width] characters.  A negative [width] makes the format
    specification invalid (ValueError). *)
Definition format_bin (b width : Z) : result (list ascii) :=
  if width <? 0 then Raise ValueError
  else
    let digits := match b with
                  | Z0 => ["0"%char]
                  | Zpos p => pos_bin p []
                  | Zneg p => pos_bin p []
                  end in
    let sign := if b <? 0 then ["-"%char] else [] in
    let pad := (Z.to_nat width - length sign - length digits)%nat in
    Ok (sign ++ replicate pad "0"%char ++ digits).

Section Oracle.
(** [np.random.randint(low, high)]: the library raises ValueError when
    [low >= high]. *)
Variable randint : Z -> Z -> Z -> result Z * Z.

(** The X-gates wrapped around the controls of the balanced oracle. *)
Definition place_x_gates (circuit : ref) (binary_string : list ascii)
  : Py unit :=
  for_each (range (Z.of_nat (length binary_string))) (fun qubit =>
    c <~ lift (getitem binary_string qubit) ;;
    if bool_decide (c = "1"%char) then emit circuit (X qubit)
    else ret tt).

(** [oracle(self)].  For a negative [num_bits] Python's [2**num_bits] is
    a float below 1 and [randint(1, ...)] raises; [2 ^ num_bits] is [0]
    then, with the same outcome. *)
Definition oracle (self : instance) : Py Gate :=
  num_bits <~ attr_int self "num_bits" ;;
  circuit <~ new_circuit (num_bits + 1) 0 ;;
  type <~ attr_str self "type" ;;
  (if bool_decide (type = "constant") then
     output <~ bind (draw (randint 0 2)) lift ;;
     if output =? 1 then emit circuit (X num_bits) else ret tt
   else ret tt) ;;;
  type <~ attr_str self "type" ;;
  (if bool_decide (type = "balanced") then
     b <~ bind (draw (randint 1 (2 ^ num_bits))) lift ;;
     binary_string <~ lift (format_bin b num_bits) ;;
     place_x_gates circuit binary_string ;;;
     for_each (range num_bits) (fun qubit =>
       emit circuit (CX qubit num_bits)) ;;;
     place_x_gates circuit binary_string
   else ret tt) ;;;
  fun w => (Ok (mkGate "Oracle" (num_bits + 1) (gates_of w circuit)), w).
End Oracle.

(** The filter of [run_quantum_hardware], line 116. *)
Definition backend_filter (self : instance) (x : backend) : result bool :=
  rbind (rbind (getattr self "num_bits") as_int) (fun num_bits =>
  and_then (n_qubits x >=? num_bits + 1)
    (and_then (negb (simulator x)) (Ok (operational x)))).

(** [algorithm(self, oracle)]: the contents of the circuit it builds and
    returns, a fresh circuit of [num_bits + 1] qubits and [num_bits]
    classical bits. *)
Definition algorithm (self : instance) (oracle : Gate)
  : result (list operation) :=
  rbind (rbind (getattr self "num_bits") as_int) (fun num_bits =>
  Ok (map (fun qubit => Plain (H qubit)) (range num_bits)
      ++ [Plain (X num_bits); Plain (H num_bits)]
      ++ [AppendGate oracle (range (num_bits + 1))]
      ++ map (fun qubit => Plain (H qubit)) (range num_bits)
      ++ map (fun i => Plain (Measure i i)) (range num_bits))).

End DeutschJozsa.

(** ** Bernstein-Vazirani: BV_qiskit.py *)

Module BernsteinVazirani.

(** [__init__(self, num_qubits, bitstring)] *)
Definition init (num_qubits : Z) (bitstring : string) : result instance :=
  Ok (<["bitstring" := VStr bitstring]> (<["n" := VInt num_qubits]> ∅)).

(** The inner-product oracle of [algorithm], lines 39-45. *)
Definition inner_product_oracle (circuit : ref) (n : Z) (bitstring : string)
  : Py unit :=
  let s := reverse (chars bitstring) in
  for_each (range n) (fun qubit =>
    c <~ lift (getitem s qubit) ;;
    if bool_decide (c = "0"%char) then emit circuit (Ig qubit)
    else emit circuit (CX qubit n)).

(** [algorithm(self, draw)]; printing and drawing leave the circuit as it
    is. *)
Definition algorithm (self : instance) (draw : bool) : Py ref :=
  n <~ attr_int self "n" ;;
  circuit <~ new_circuit (n + 1) n ;;
  emit circuit (H n) ;;;
  emit circuit (Zg n) ;;;
  for_each (range n) (fun qubit => emit circuit (H qubit)) ;;;
  emit circuit Barrier ;;;
  bitstring <~ attr_str self "bitstring" ;;
  inner_product_oracle circuit n bitstring ;;;
  emit circuit Barrier ;;;
  for_each (range n) (fun qubit => emit circuit (H qubit)) ;;;
  for_each (range n) (fun qubit => emit circuit (Measure qubit qubit)) ;;;
  ret circuit.

(** The filter of [run_quantum_hardware], line 85. *)
Definition backend_filter (self : instance) (x : backend) : result bool :=
  rbind (rbind (getattr self "num_bits") as_int) (fun num_bits =>
  and_then (n_qubits x >=? num_bits + 1)
    (and_then (negb (simulator x)) (Ok (operational x)))).

(** [run_quantum_hardware] up to the hand-over to [least_busy]: the
    backends of the provider that pass the filter. *)
Definition run_quantum_hardware_candidates (self : instance)
    (provider : list backend) : result (list backend) :=
  backends (backend_filter self) provider.

End BernsteinVazirani.

(** ** Quantum Fourier Transform: QFT_qiskit.py *)

Module QuantumFourierTransform.

(** [__init__(self, num_qubits)]: the instance keeps a circuit object. *)
Definition init (num_qubits : Z) : Py instance :=
  circuit <~ new_circuit num_qubits 0 ;;
  ret (<["circuit" := VRef circuit]> (<["n" := VInt num_qubits]> ∅)).

(** [rotations(self, circuit, n)].  The method calls itself, and every call
    takes a frame of the interpreter's stack.  [depth] is the number of
    nested calls of [rotations] that the interpreter's recursion limit still
    admits when the method is entered: the limit (1000, unless
    [sys.setrecursionlimit] changed it) less the frames in use by the
    callers and those the gate methods need.  A call made with none left
    raises RecursionError. *)
Fixpoint rotations (depth : nat) (circuit : ref) (n : Z) : Py ref :=
  match depth with
  | O => raise RecursionError
  | S depth' =>
      if n =? 0 then ret circuit
      else
        let n := n - 1 in
        emit circuit (H n) ;;;
        for_each (range n) (fun qubit =>
          theta <~ lift (pi_over_2pow (n - qubit)) ;;
          emit circuit (CP theta qubit n)) ;;;
        circuit <~ rotations depth' circuit n ;;
        ret circuit
  end.

(** [swap_registers(self, circuit, n)] *)
Definition swap_registers (circuit : ref) (n : Z) : Py ref :=
  for_each (range (n / 2)) (fun qubit =>
    emit circuit (SWAP qubit (n - qubit - 1))) ;;;
  ret circuit.

(** [algorithm(self, draw)], entered with [depth] nested calls of
    [rotations] admitted; printing and drawing leave the circuit as it
    is. *)
Definition algorithm (depth : nat) (self : instance) (draw : bool)
  : Py ref :=
  self_circuit <~ attr_ref self "circuit" ;;
  n <~ attr_int self "n" ;;
  circuit <~ rotations depth self_circuit n ;;
  n <~ attr_int self "n" ;;
  circuit <~ swap_registers circuit n ;;
  ret circuit.

(** The filter of [run_quantum_hardware], line 91. *)
Definition backend_filter (self : instance) (x : backend) : result bool :=
  rbind (rbind (getattr self "n") as_int) (fun n =>
  and_then (n_qubits x >=? n)
    (and_then (negb (simulator x)) (Ok (operational x)))).

End QuantumFourierTransform.

(** ** Quantum Phase Estimation: QPE_qiskit.py *)

Module QuantumPhaseEstimation.

(** [__init__(self, n_counting_qubits, angle)] *)
Definition init (n_counting_qubits : Z) (angle : QArith_base.Q)
  : result instance :=
  Ok (<["angle" := VAngle (TwoPiTimes angle)]>
      (<["n_counting_qubits" := VInt n_counting_qubits]> ∅)).

(** [qft_inverse(self, circuit, n)] *)
Definition qft_inverse (circuit : ref) (n : Z) : Py ref :=
  for_each (range (n / 2)) (fun qubit =>
    emit circuit (SWAP qubit (n - qubit - 1))) ;;;
  for_each (range n) (fun j =>
    for_each (range j) (fun m =>
      theta <~ lift (neg_pi_over_2pow (j - m)) ;;
      emit circuit (CP theta m j)) ;;;
    emit circuit (H j)) ;;;
  ret circuit.

(** The controlled-U loop of [algorithm], lines 48-52; it returns the
    final value of the local variable [repetitions]. *)
Definition controlled_U (self : instance) (circuit : ref)
    (n_counting_qubits repetitions : Z) : Py Z :=
  for_fold (range n_counting_qubits) repetitions
    (fun counting_qubit repetitions =>
      for_each (range repetitions) (fun _ =>
        angle <~ attr_angle self "angle" ;;
        n <~ attr_int self "n_counting_qubits" ;;
        emit circuit (CP angle counting_qubit n)) ;;;
      ret (repetitions * 2)).

(** [algorithm(self, eigenstate_x, repetitions, draw)] *)
Definition algorithm (self : instance) (eigenstate_x : bool)
    (repetitions : Z) (draw : bool) : Py ref :=
  n <~ attr_int self "n_counting_qubits" ;;
  circuit <~ new_circuit (n + 1) n ;;
  for_each (range n) (fun qubit => emit circuit (H qubit)) ;;;
  (if eigenstate_x then emit circuit (X n) else ret tt) ;;;
  controlled_U self circuit n repetitions ;;;
  emit circuit Barrier ;;;
  circuit <~ qft_inverse circuit n ;;
  emit circuit Barrier ;;;
  for_each (range n) (fun qubit => emit circuit (Measure qubit qubit)) ;;;
  ret circuit.

(** [algorithm()] with its default arguments. *)
Definition algorithm_default (self : instance) : Py ref :=
  algorithm self false 1 false.

(** The filter of [run_quantum_hardware], line 98. *)
Definition backend_filter (self : instance) (x : backend) : result bool :=
  rbind (rbind (getattr self "n") as_int) (fun n =>
  and_then (n_qubits x >=? n)
    (and_then (negb (simulator x)) (Ok (operational x)))).

Definition run_quantum_hardware_candidates (self : instance)
    (provider : list backend) : result (list backend) :=
  backends (backend_filter self) provider.

End QuantumPhaseEstimation.

(** ** Simon's problem: Simon_qiskit.py *)

(** [l.index(x)]: the first position of [x]; ValueError when absent. *)
Definition index (l : list Z) (x : Z) : result Z :=
  match list_find (fun y => y = x) l with
  | Some (k, _) => Ok (Z.of_nat k)
  | None => Raise ValueError
  end.

(** [l[i] = v]: IndexError when out of range. *)
Definition setitem {A} (l : list A) (i : Z) (v : A) : result (list A) :=
  let j := if i <? 0 then Z.of_nat (length l) + i else i in
  if (j <? 0) || (Z.of_nat (length l) <=? j) then Raise IndexError
  else Ok (<[Z.to_nat j := v]> l).

(** [s.rfind(c)]: the last position of the character [c], or [-1]. *)
Fixpoint rfind_from (s : list ascii) (c : ascii) (pos last : Z) : Z :=
  match s with
  | [] => last
  | a :: s' =>
      rfind_from s' c (pos + 1) (if bool_decide (a = c) then pos else last)
  end.
Definition rfind (s : string) (c : ascii) : Z := rfind_from (chars s) c 0 (-1).

(** [enumerate(l)] *)
Definition enumerate {A} (l : list A) : list (Z * A) :=
  zip (seqZ 0 (Z.of_nat (length l))) l.

(** [int(c)] on a one-character string: a decimal digit, else ValueError. *)
Definition int_of_char (c : ascii) : result Z :=
  let k := Z.of_nat (nat_of_ascii c) in
  if (48 <=? k) && (k <=? 57) then Ok (k - 48) else Raise ValueError.

Module SimonProblem.

(** [__init__(self, bitstring)] *)
Definition init (bitstring : string) : result instance :=
  Ok (<["n" := VInt (len bitstring)]> (<["b" := VStr bitstring]> ∅)).

(** The while-loop of [oracle], lines 40-50, run with [fuel] iterations at
    most.  It returns the final [i] and [initial_position], or [None] when
    the fuel ran out. *)
Fixpoint permute_loop (fuel : nat) (circuit : ref) (n : Z)
    (permutation : list Z) (i : Z) (initial_position : list Z)
  : Py (option (Z * list Z)) :=
  match fuel with
  | O => ret None
  | S fuel' =>
      if i <? n then
        a <~ lift (getitem initial_position i) ;;
        b <~ lift (getitem permutation i) ;;
        if negb (a =? b) then
          a <~ lift (getitem initial_position i) ;;
          k <~ lift (index permutation a) ;;
          emit circuit (SWAP (n + i) (n + k)) ;;;
          at_k <~ lift (getitem initial_position k) ;;
          at_i <~ lift (getitem initial_position i) ;;
          initial_position <~ lift (setitem initial_position i at_k) ;;
          initial_position <~ lift (setitem initial_position k at_i) ;;
          permute_loop fuel' circuit n permutation i initial_position
        else
          permute_loop fuel' circuit n permutation (i + 1) initial_position
      else ret (Some (i, initial_position))
  end.

Section Oracle.
(** [np.random.permutation(n)] and [np.random.random()] *)
Variable np_permutation : Z -> Z -> list Z * Z.
Variable np_random_sample : Z -> QArith_base.Q * Z.

(** [x > 0.5] *)
Definition gt_half (x : QArith_base.Q) : bool :=
  negb (QArith_base.Qle_bool x (QArith_base.Qmake 1 2)).

(** [oracle(self, circuit)] *)
Definition oracle (fuel : nat) (self : instance) (circuit : ref)
  : Py (option ref) :=
  n <~ attr_int self "n" ;;
  for_each (range n) (fun i => emit circuit (CX i (n + i))) ;;;
  b <~ attr_str self "b" ;;
  let j := rfind b "1"%char in
  for_each (enumerate (chars b)) (fun '(idx, char) =>
    if bool_decide (char = "1"%char) && negb (j =? -1)
    then emit circuit (CX j (n + idx)) else ret tt) ;;;
  permutation <~ draw (np_permutation n) ;;
  let initial_position := range n in
  r <~ permute_loop fuel circuit n permutation 0 initial_position ;;
  match r with
  | None => ret None
  | Some _ =>
      for_each (range n) (fun i =>
        x <~ draw np_random_sample ;;
        if gt_half x then emit circuit (X (n + i)) else ret tt) ;;;
      ret (Some circuit)
  end.

(** [algorithm(self, draw)]; [h(range(n))] and
    [measure(range(n), range(n))] act qubit by qubit. *)
Definition algorithm (fuel : nat) (self : instance) (draw : bool)
  : Py (option ref) :=
  n <~ attr_int self "n" ;;
  simon_circuit <~ new_circuit (n * 2) n ;;
  for_each (range n) (fun q => emit simon_circuit (H q)) ;;;
  emit simon_circuit Barrier ;;;
  r <~ oracle fuel self simon_circuit ;;
  match r with
  | None => ret None
  | Some simon_circuit =>
      emit simon_circuit Barrier ;;;
      for_each (range n) (fun q => emit simon_circuit (H q)) ;;;
      for_each (range n) (fun q => emit simon_circuit (Measure q q)) ;;;
      ret (Some simon_circuit)
  end.
End Oracle.

(** [bdotz(self, b, z)] on two strings. *)
Definition bdotz (b z : string) : result Z :=
  rbind
    (fold_left (fun (acc : result Z) (i : Z) =>
       rbind acc (fun accum =>
       rbind (getitem (chars b) i) (fun bi =>
       rbind (int_of_char bi) (fun bv =>
       rbind (getitem (chars z) i) (fun zi =>
       rbind (int_of_char zi) (fun zv =>
       Ok (accum + bv * zv)))))))
       (range (len b)) (Ok 0))
    (fun accum => Ok (accum mod 2)).

(** The filter of [run_quantum_hardware], line 121. *)
Definition backend_filter (self : instance) (x : backend) : result bool :=
  rbind (rbind (getattr self "n") as_int) (fun n =>
  and_then (n_qubits x >=? n)
    (and_then (negb (simulator x)) (Ok (operational x)))).

End SimonProblem.

(** ** Definitions used to state the properties *)

Definition append_instructions (gs : list instruction) (c : QuantumCircuit)
  : QuantumCircuit :=
  mkCircuit (num_qubits c) (num_clbits c) (data c ++ gs).

(** The world after the gate calls [gs] were made, in order, on the circuit
    object [c]. *)
Definition emit_all (c : ref) (gs : list instruction) (w : world) : world :=
  mkWorld (alter (append_instructions gs) c (heap w)) (np_random w).

(** A string of the characters '0' and '1'. *)
Definition is_bitstring (s : string) : Prop :=
  Forall (fun c => c = "0"%char \/ c = "1"%char) (chars s).

(** The oracle layer of Bernstein-Vazirani as the reversed bitstring
    prescribes it: on input qubit [i] a CNOT onto the output qubit [n] when
    [s[n-1-i]] is '1', an identity gate otherwise. *)
Definition BV_oracle_layer (n : Z) (s : string) : list instruction :=
  map (fun i =>
         if bool_decide (chars s !! Z.to_nat (n - 1 - i) = Some "1"%char)
         then CX i n else Ig i)
      (range n).

(** The whole Bernstein-Vazirani circuit around that layer. *)
Definition BV_circuit (n : Z) (s : string) : list instruction :=
  [H n; Zg n] ++ map H (range n) ++ [Barrier] ++ BV_oracle_layer n s
  ++ [Barrier] ++ map H (range n) ++ map (fun q => Measure q q) (range n).

(** The textbook gate sequence of the Quantum Fourier Transform on [n]
    qubits.  For the target qubit [k]: a Hadamard gate on [k], then for each
    [q < k] a controlled phase of angle pi/2^(k-q) with control [q] and
    target [k]. *)
Definition QFT_block (k : Z) : list instruction :=
  H k :: map (fun q => CP (PiOver2Pow (k - q)) q k) (range k).

(** The blocks for [k = n-1] down to [0]. *)
Definition QFT_rotations (n : Z) : list instruction :=
  concat (map QFT_block (reverse (range n))).

(** The final swaps: qubit [q] with qubit [n-1-q] for each [q < n//2]. *)
Definition QFT_swaps (n : Z) : list instruction :=
  map (fun q => SWAP q (n - 1 - q)) (range (n / 2)).

Definition QFT_circuit (n : Z) : list instruction :=
  QFT_rotations n ++ QFT_swaps n.

(** CPython's recursion limit as shipped, [sys.getrecursionlimit()]: an
    upper bound on the nested calls any method is admitted. *)
Definition stock_recursion_limit : nat := 1000.

(** The controlled-U layer of Quantum Phase Estimation: for each counting
    qubit [i < n], [2^i] controlled phases of angle [a] with control [i] and
    target the eigenstate qubit [n]. *)
Definition QPE_controlled_U_layer (a : angle) (n : Z) : list instruction :=
  concat (map (fun i => replicate (Z.to_nat (2 ^ i)) (CP a i n)) (range n)).

Global Instance Q_eq_dec : EqDecision QArith_base.Q.
Proof. solve_decision. Defined.
Global Instance angle_eq_dec : EqDecision angle.
Proof. solve_decision. Defined.
Global Instance instruction_eq_dec : EqDecision instruction.
Proof. solve_decision. Defined.

(** How many times the gate [g] occurs in [gs]. *)
Definition occurrences (g : instruction) (gs : list instruction) : nat :=
  length (filter (fun g' => g' = g) gs).

(** The gate calls of the controlled-U loop over the counting qubits [l],
    entered with the local variable [repetitions] at [reps]. *)
Fixpoint controlled_U_gates (a : angle) (n reps : Z) (l : list Z)
  : list instruction :=
  match l with
  | [] => []
  | i :: l' =>
      replicate (Z.to_nat reps) (CP a i n)
      ++ controlled_U_gates a n (reps * 2) l'
  end.

(** The computation [m] changes the world only by gate calls on the circuit
    object [c], each of a gate that satisfies [P]. *)
Definition emits_where {A} (P : instruction -> Prop) (c : ref) (m : Py A)
  : Prop :=
  forall w, exists r gs, m w = (r, emit_all c gs w) /\ Forall P gs.

(** [g] is not a controlled phase onto qubit [t]. *)
Definition no_phase_onto (t : Z) (g : instruction) : Prop :=
  match g with
  | CP _ _ t' => t' <> t
  | _ => True
  end.

Create HintDb emits.

(** The value of a bit character. *)
Definition bit_value (c : ascii) : Z :=
  if bool_decide (c = "1"%char) then 1 else 0.

(** The inner product of two bit strings: the sum over [i] of
    [b[i] * z[i]]. *)
Definition inner_product (b z : list ascii) : Z :=
  foldr Z.add 0 (zip_with (fun x y => bit_value x * bit_value y) b z).

(** The positions at which [initial_position] still differs from
    [permutation]. *)
Definition mismatches (permutation initial_position : list Z) : nat :=
  length (filter (fun j => initial_position !! j <> permutation !! j)
                 (seq 0 (length permutation))).

(** The invariant of the while-loop of [SimonProblem.oracle]:
    [initial_position] has the length of [permutation], repeats no element,
    holds only elements of [permutation], and agrees with it below [i]. *)
Definition permute_inv (n : Z) (permutation : list Z) (i : Z)
    (initial_position : list Z) : Prop :=
  0 <= i <= n
  /\ length initial_position = length permutation
  /\ (forall j1 j2 x, initial_position !! j1 = Some x ->
                      initial_position !! j2 = Some x -> j1 = j2)
  /\ (forall j x, initial_position !! j = Some x -> x ∈ permutation)
  /\ (forall j, (j < Z.to_nat i)%nat ->
                initial_position !! j = permutation !! j).

(** Two worlds that agree on the state of numpy's generator and in which
    the circuit objects [c1] and [c2] exist and hold the same gates. *)
Definition sim (c1 c2 : ref) (w1 w2 : world) : Prop :=
  np_random w1 = np_random w2
  /\ (c1 < length (heap w1))%nat /\ (c2 < length (heap w2))%nat
  /\ gates_of w1 c1 = gates_of w2 c2.

(** Two runs with the same outcome up to [R]: both return, with results
    related by [R], or both raise the same exception. *)
Definition same_outcome {A} (R : A -> A -> Prop) (r1 r2 : result A) : Prop :=
  match r1, r2 with
  | Ok a1, Ok a2 => R a1 a2
  | Raise e1, Raise e2 => e1 = e2
  | _, _ => False
  end.

(** [m1] on the circuit [c1] and [m2] on the circuit [c2] run in lockstep:
    from worlds related by [sim] they have the same outcome and end in
    worlds related by [sim]. *)
Definition lockstep {A} (R : A -> A -> Prop) (c1 c2 : ref) (m1 m2 : Py A)
  : Prop :=
  forall w1 w2, sim c1 c2 w1 w2 ->
    same_outcome R (m1 w1).1 (m2 w2).1 /\ sim c1 c2 (m1 w1).2 (m2 w2).2.

(** A generator for [np.random.randint] that serves the state itself,
    reduced into [low, high), and steps the state by one. *)
Definition counter_randint (low high g : Z) : result Z * Z :=
  (if low <? high then Ok (low + g mod (high - low)) else Raise ValueError,
   g + 1).

(** Generators for [np.random.permutation] and [np.random.random] in the
    same style: the identity or the reversal by the parity of the state, and
    the state's quarter-turn in [0, 1). *)
Definition counter_permutation (n g : Z) : list Z * Z :=
  (if Z.even g then range n else reverse (range n), g + 1).

Definition counter_random_sample (g : Z) : QArith_base.Q * Z :=
  (QArith_base.Qmake (g mod 4) 4, g + 1).

(** An instruction the library accepts on a circuit of [nq] qubits and
    [nc] classical bits: every index in range, and the two operands of a
    two-qubit gate distinct. *)
Definition in_circuit (nq nc : Z) (g : instruction) : Prop :=
  match g with
  | H q | X q | Zg q | Ig q => 0 <= q < nq
  | CX a b | CP _ a b | SWAP a b => 0 <= a < nq /\ 0 <= b < nq /\ a <> b
  | Barrier => True
  | Measure q c => 0 <= q < nq /\ 0 <= c < nc
  end.

(** The oracle layer of Bernstein-Vazirani on any string [s]: on input qubit
    [i] an identity gate when the character [i] places from the end of [s]
    is '0', a CNOT onto qubit [n] otherwise. *)
Definition BV_layer_from_end (n k : Z) (s : string) : list instruction :=
  map (fun i =>
         if bool_decide (chars s !! Z.to_nat (len s - 1 - i) = Some "0"%char)
         then Ig i else CX i n)
      (range k).

(** The gate calls of [QuantumPhaseEstimation.qft_inverse] for the target
    qubit [j]: the controlled phases of angle -pi/2^(j-m) from each [m < j],
    then the Hadamard gate. *)
Definition QPE_inverse_block (j : Z) : list instruction :=
  map (fun m => CP (NegPiOver2Pow (j - m)) m j) (range j) ++ [H j].

(** All gate calls of [qft_inverse] on [n] qubits: the swaps, then the
    blocks for [j = 0] up to [n-1]. *)
Definition QPE_qft_inverse_gates (n : Z) : list instruction :=
  map (fun q => SWAP q (n - q - 1)) (range (n / 2))
  ++ concat (map QPE_inverse_block (range n)).



(** A Hadamard gate. *)
Definition is_H (g : instruction) : bool :=
  match g with H _ => true | _ => false end.

(** The controlled-U layer when [algorithm] is entered with
    [repetitions = r]: [r * 2^i] controlled phases from counting qubit [i],
    none when that number is not positive. *)
Definition QPE_controlled_U_layer_from (a : angle) (n r : Z)
  : list instruction :=
  concat (map (fun i => replicate (Z.to_nat (r * 2 ^ i)) (CP a i n))
              (range n)).

(** The whole circuit of [QuantumPhaseEstimation.algorithm]. *)
Definition QPE_circuit (a : angle) (n : Z) (eigenstate_x : bool) (r : Z)
  : list instruction :=
  map H (range n) ++ (if eigenstate_x then [X n] else [])
  ++ QPE_controlled_U_layer_from a n r ++ [Barrier]
  ++ QPE_qft_inverse_gates n ++ [Barrier]
  ++ map (fun q => Measure q q) (range n).

(** The X-gates that wrap the controls of the balanced Deutsch-Jozsa
    oracle drawn as the number [b]: one on each input qubit [q] whose bit,
    bit [num_bits-1-q] of [b], is set. *)
Definition DJ_wrap (num_bits b : Z) : list instruction :=
  map X (filter (fun q => Z.testbit b (num_bits - 1 - q)) (range num_bits)).

(** The balanced oracle drawn as [b]: the wrap, a CNOT from every input
    qubit onto the output qubit, and the same wrap again. *)
Definition DJ_balanced_definition (num_bits b : Z) : list instruction :=
  DJ_wrap num_bits b ++ map (fun q => CX q num_bits) (range num_bits)
  ++ DJ_wrap num_bits b.

(** The digit of a bit. *)
Definition bit_char (b : bool) : ascii := if b then "1"%char else "0"%char.

(** The shape of a gate of Simon's oracle on [n] + [n] qubits: the first
    register is only read, as the control of a CNOT, and everything written
    (CNOT targets, swaps, X-gates) lies in the second register. *)
Definition writes_second_register (n : Z) (g : instruction) : Prop :=
  match g with
  | CX a b => 0 <= a < n /\ n <= b < 2 * n
  | SWAP a b => n <= a < 2 * n /\ n <= b < 2 * n /\ a <> b
  | X q => n <= q < 2 * n
  | _ => False
  end.

(** A swap of two distinct qubits of the second register. *)
Definition second_register_swap (n : Z) (g : instruction) : Prop :=
  match g with
  | SWAP a b => n <= a < 2 * n /\ n <= b < 2 * n /\ a <> b
  | _ => False
  end.

(** Step 1 of the oracle: qubit [i] copied onto qubit [n + i]. *)
Definition Simon_copy_gates (n : Z) : list instruction :=
  map (fun i => CX i (n + i)) (range n).

(** Step 2 of the oracle: from the qubit of the last '1' of [s], a CNOT onto
    qubit [n + idx] for every position [idx] that holds a '1'. *)
Definition Simon_xor_gates (n : Z) (s : string) : list instruction :=
  concat (map (fun '(idx, char) =>
                 if bool_decide (char = "1"%char)
                 then [CX (rfind s "1"%char) (n + idx)] else [])
              (enumerate (chars s))).

(** * Properties *)

(** ** The monad and the circuit log *)

Lemma emit_all_nil c w : emit_all c [] w = w.
Proof.
  destruct w as [h g]. unfold emit_all; simpl. f_equal.
  apply list_alter_id. intros [nq nc d]. unfold append_instructions; simpl.
  by rewrite app_nil_r.
Qed.

Lemma emit_all_app c gs1 gs2 w :
  emit_all c gs2 (emit_all c gs1 w) = emit_all c (gs1 ++ gs2) w.
Proof.
  unfold emit_all; simpl. f_equal. rewrite list_alter_alter_eq.
  apply list_alter_ext; [|done]. intros [nq nc d] _.
  unfold append_instructions; simpl. by rewrite app_assoc.
Qed.

Lemma emit_emit_all c g w : emit c g w = (Ok tt, emit_all c [g] w).
Proof. reflexivity. Qed.

Lemma gates_of_emit_all c gs w circ :
  heap w !! c = Some circ -> gates_of (emit_all c gs w) c = data circ ++ gs.
Proof.
  intros Hc. unfold gates_of, emit_all; simpl.
  by rewrite list_lookup_alter_eq, Hc.
Qed.

Lemma gates_of_emit_all_valid c gs w :
  (c < length (heap w))%nat ->
  gates_of (emit_all c gs w) c = gates_of w c ++ gs.
Proof.
  intros Hc. destruct (lookup_lt_is_Some_2 _ _ Hc) as [circ Hcirc].
  rewrite (gates_of_emit_all _ _ _ _ Hcirc). unfold gates_of. by rewrite Hcirc.
Qed.

Lemma heap_length_emit_all c gs w :
  length (heap (emit_all c gs w)) = length (heap w).
Proof. unfold emit_all; simpl. apply length_alter. Qed.

(** A loop whose every iteration makes the gate calls [f x] on [c] makes
    the calls of all iterations, in order. *)
Lemma for_each_emit {A} (l : list A) (body : A -> Py unit)
    (f : A -> list instruction) c :
  (forall x w, x ∈ l -> body x w = (Ok tt, emit_all c (f x) w)) ->
  forall w, for_each l body w = (Ok tt, emit_all c (concat (map f l)) w).
Proof.
  induction l as [|x l IH]; intros Hbody w; simpl.
  - by rewrite emit_all_nil.
  - unfold bind. rewrite Hbody by left.
    rewrite IH by (intros; apply Hbody; by right).
    by rewrite emit_all_app.
Qed.

Lemma for_each_emit_one {A} (l : list A) (f : A -> instruction) c w :
  for_each l (fun x => emit c (f x)) w = (Ok tt, emit_all c (map f l) w).
Proof.
  rewrite (for_each_emit l _ (fun x => [f x]) c) by done.
  do 2 f_equal. induction l; simpl; by f_equal.
Qed.

Lemma getitem_lookup {A} (l : list A) (i : Z) (x : A) :
  0 <= i -> l !! Z.to_nat i = Some x -> getitem l i = Ok x.
Proof.
  intros Hi Hx. unfold getitem.
  destruct (i <? 0) eqn:E; [lia|]. rewrite E. by rewrite Hx.
Qed.

Lemma elem_of_range (n i : Z) : i ∈ range n <-> 0 <= i < n.
Proof. unfold range. rewrite elem_of_seqZ. lia. Qed.

(** Attribute reads on the dictionaries the constructors build. *)
Ltac attr_lookup :=
  unfold attr_int, attr_str, attr_angle, attr_ref, getattr;
  repeat (rewrite lookup_insert_eq
          || (rewrite lookup_insert_ne by discriminate)
          || rewrite lookup_empty);
  simpl.

(** ** Deutsch-Jozsa: the constructor *)

Example DJ_init_constant :
  exists self, DeutschJozsa.init "constant" 2 = Ok self
               /\ getattr self "num_bits" = Ok (VInt 2).
Proof. eexists; split; [reflexivity|]. by attr_lookup. Qed.

Example DJ_init_other :
  DeutschJozsa.init "random" 2
  = Raise (AssertionError
      "type should be either constant or balanced. random not allowed").
Proof. reflexivity. Qed.

(** C2: [DeutschJozsa.__init__] raises AssertionError exactly when [type] is
    neither 'constant' nor 'balanced'; for one of these two strings the
    construction succeeds and the instance holds [type] and [num_bits] as
    they were passed. *)
Theorem C2_init_assertion (type : string) (num_bits : Z) :
  ((exists msg, DeutschJozsa.init type num_bits = Raise (AssertionError msg))
   <-> (type <> "constant" /\ type <> "balanced"))
  /\ (type = "constant" \/ type = "balanced" ->
      exists self, DeutschJozsa.init type num_bits = Ok self
                   /\ getattr self "type" = Ok (VStr type)
                   /\ getattr self "num_bits" = Ok (VInt num_bits)).
Proof.
  unfold DeutschJozsa.init. split; [split|].
  - intros [msg Hm].
    destruct (bool_decide (type = "constant")) eqn:E1;
      destruct (bool_decide (type = "balanced")) eqn:E2;
      simpl in Hm; try discriminate.
    apply bool_decide_eq_false in E1, E2. done.
  - intros [H1 H2].
    rewrite (bool_decide_eq_false_2 _ H1), (bool_decide_eq_false_2 _ H2).
    simpl. eauto.
  - intros Hty.
    assert (bool_decide (type = "constant") || bool_decide (type = "balanced")
            = true) as ->.
    { destruct Hty as [-> | ->]; reflexivity. }
    eexists; split; [reflexivity|]. split; by attr_lookup.
Qed.

Lemma C2_init_assertion_witness :
  exists self, DeutschJozsa.init "balanced" 3 = Ok self
               /\ getattr self "type" = Ok (VStr "balanced")
               /\ getattr self "num_bits" = Ok (VInt 3).
Proof.
  apply (proj2 (C2_init_assertion "balanced" 3)). right. reflexivity.
Defined.

Lemma bind_Ok {A B} (m : Py A) (k : A -> Py B) w a w' :
  m w = (Ok a, w') -> bind m k w = k a w'.
Proof. intros Hm. unfold bind. by rewrite Hm. Qed.

Lemma bind_Raise {A B} (m : Py A) (k : A -> Py B) w e w' :
  m w = (Raise e, w') -> bind m k w = (Raise e, w').
Proof. intros Hm. unfold bind. by rewrite Hm. Qed.

Lemma bind_lift {A B} (r : result A) (k : A -> Py B) w :
  bind (lift r) k w = match r with Ok a => k a w | Raise e => (Raise e, w) end.
Proof. by destruct r. Qed.

Lemma new_circuit_eq nq nc w :
  new_circuit nq nc w
  = (Ok (length (heap w)),
     mkWorld (heap w ++ [mkCircuit nq nc []]) (np_random w)).
Proof. reflexivity. Qed.

Lemma gates_of_fresh nq nc h g gs :
  gates_of (emit_all (length h) gs (mkWorld (h ++ [mkCircuit nq nc []]) g))
           (length h) = gs.
Proof.
  rewrite (gates_of_emit_all _ _ _ (mkCircuit nq nc [])); [reflexivity|].
  simpl. by rewrite lookup_app_r, Nat.sub_diag by lia.
Qed.

Ltac py_emit := erewrite bind_Ok by apply emit_emit_all.
Ltac py_loop := erewrite bind_Ok by apply for_each_emit_one.
Ltac py_new := erewrite bind_Ok by apply new_circuit_eq.
Ltac py_attr := erewrite bind_Ok by (attr_lookup; reflexivity).

(** Closes [is_bitstring] on a literal. *)
Ltac bitstring_literal :=
  unfold is_bitstring; simpl;
  repeat first
    [ apply List.Forall_nil
    | apply List.Forall_cons;
      [ (left; reflexivity) || (right; reflexivity) | ] ].

(** ** Bernstein-Vazirani *)

Lemma BV_inner_product_oracle_layer (c : ref) (n : Z) (s : string) w :
  len s = n -> is_bitstring s ->
  BernsteinVazirani.inner_product_oracle c n s w
  = (Ok tt, emit_all c (BV_oracle_layer n s) w).
Proof.
  intros Hlen Hbits. unfold BernsteinVazirani.inner_product_oracle.
  rewrite (for_each_emit _ _
    (fun i => [if bool_decide (chars s !! Z.to_nat (n - 1 - i)
                               = Some "1"%char)
               then CX i n else Ig i]) c).
  { do 2 f_equal. unfold BV_oracle_layer.
    induction (range n); simpl; by f_equal. }
  intros i w0 Hi. apply elem_of_range in Hi. unfold len in Hlen.
  assert (Hrev : reverse (chars s) !! Z.to_nat i
                 = chars s !! Z.to_nat (n - 1 - i)).
  { rewrite reverse_lookup by lia. f_equal. lia. }
  destruct (chars s !! Z.to_nat (n - 1 - i)) as [ch|] eqn:Hch.
  - erewrite bind_Ok
      by (unfold lift; erewrite getitem_lookup by (lia || exact Hrev); done).
    assert (ch = "0"%char \/ ch = "1"%char) as [-> | ->].
    { unfold is_bitstring in Hbits. rewrite Forall_forall in Hbits.
      apply Hbits. eapply list_elem_of_lookup_2. exact Hch. }
    + reflexivity.
    + reflexivity.
  - apply lookup_ge_None_1 in Hch. lia.
Qed.

Example BV_algorithm_101 :
  exists self w',
    BernsteinVazirani.init 3 "110" = Ok self
    /\ BernsteinVazirani.algorithm self false (mkWorld [] 0) = (Ok 0%nat, w')
    /\ gates_of w' 0%nat
       = [H 3; Zg 3; H 0; H 1; H 2; Barrier; Ig 0; CX 1 3; CX 2 3; Barrier;
          H 0; H 1; H 2; Measure 0 0; Measure 1 1; Measure 2 2].
Proof. do 2 eexists. split; [reflexivity|]. split; vm_compute; reflexivity. Qed.

(** C5: for [n >= 1] and a bitstring [s] of length [n], the oracle layer of
    [BernsteinVazirani.algorithm] follows the reversed bitstring: on each
    input qubit [i < n] a CNOT from [i] onto the output qubit [n] exactly
    when [s[n-1-i]] is '1', and an identity gate on [i] otherwise; the
    returned circuit carries that layer between its two barriers. *)
Theorem C5_oracle_layer_reversed (n : Z) (s : string) (draw : bool) (w : world) :
  1 <= n -> len s = n -> is_bitstring s ->
  (forall c w0, BernsteinVazirani.inner_product_oracle c n s w0
                = (Ok tt, emit_all c (BV_oracle_layer n s) w0))
  /\ exists self w',
       BernsteinVazirani.init n s = Ok self
       /\ BernsteinVazirani.algorithm self draw w = (Ok (length (heap w)), w')
       /\ gates_of w' (length (heap w)) = BV_circuit n s.
Proof.
  intros Hn Hlen Hbits. split.
  { intros c w0. by apply BV_inner_product_oracle_layer. }
  eexists. eexists. split; [reflexivity|].
  unfold BernsteinVazirani.algorithm.
  py_attr. py_new. py_emit. py_emit. py_loop. py_emit. py_attr.
  erewrite bind_Ok by (by apply BV_inner_product_oracle_layer).
  py_emit. py_loop. py_loop. unfold ret.
  rewrite !emit_all_app. split; [reflexivity|].
  rewrite gates_of_fresh. reflexivity.
Qed.

Lemma C5_oracle_layer_reversed_witness :
  (forall c w0, BernsteinVazirani.inner_product_oracle c 3 "110" w0
                = (Ok tt, emit_all c (BV_oracle_layer 3 "110") w0))
  /\ exists self w',
       BernsteinVazirani.init 3 "110" = Ok self
       /\ BernsteinVazirani.algorithm self false (mkWorld [] 0)
          = (Ok 0%nat, w')
       /\ gates_of w' 0%nat = BV_circuit 3 "110".
Proof.
  apply (C5_oracle_layer_reversed 3 "110" false (mkWorld [] 0));
    [lia | reflexivity | bitstring_literal].
Defined.

(** ** Quantum Fourier Transform *)

Lemma range_snoc (n : Z) : 0 < n -> range n = range (n - 1) ++ [n - 1].
Proof.
  intros Hn. unfold range.
  replace n with ((n - 1) + 1) at 1 by lia.
  rewrite seqZ_app by lia. f_equal.
Qed.

Lemma QFT_rotations_step (n : Z) :
  0 < n -> QFT_rotations n = QFT_block (n - 1) ++ QFT_rotations (n - 1).
Proof.
  intros Hn. unfold QFT_rotations.
  rewrite (range_snoc n Hn), reverse_app. reflexivity.
Qed.

(** The rotation loop for the target qubit [k]. *)
Lemma QFT_cp_loop (c : ref) (k : Z) w :
  k <= float_max_exp ->
  for_each (range k) (fun qubit =>
     theta <~ lift (pi_over_2pow (k - qubit)) ;;
     emit c (CP theta qubit k)) w
  = (Ok tt, emit_all c (map (fun q => CP (PiOver2Pow (k - q)) q k) (range k)) w).
Proof.
  intros Hk.
  rewrite (for_each_emit _ _ (fun q => [CP (PiOver2Pow (k - q)) q k]) c).
  { do 2 f_equal. induction (range k); simpl; by f_equal. }
  intros q w0 Hq. apply elem_of_range in Hq.
  unfold bind, lift, pi_over_2pow.
  destruct (k - q <=? float_max_exp) eqn:E; [reflexivity|]. lia.
Qed.

(** When more than [n] nested calls are admitted, [rotations] reaches its
    base case and has made the gate calls of [QFT_rotations n], provided
    every angle is representable. *)
Lemma QFT_rotations_ok (depth : nat) : forall (c : ref) (n : Z) w,
  0 <= n <= float_max_exp + 1 -> (Z.to_nat n < depth)%nat ->
  QuantumFourierTransform.rotations depth c n w
  = (Ok c, emit_all c (QFT_rotations n) w).
Proof.
  induction depth as [|depth IH]; intros c n w Hn Hdepth; [lia|].
  simpl. destruct (n =? 0) eqn:E.
  - apply Z.eqb_eq in E. subst n. unfold ret. by rewrite emit_all_nil.
  - apply Z.eqb_neq in E. py_emit.
    erewrite bind_Ok by (apply QFT_cp_loop; lia).
    erewrite bind_Ok by (apply IH; lia).
    unfold ret. rewrite !emit_all_app.
    rewrite (QFT_rotations_step n) by lia. reflexivity.
Qed.

(** When at most [n] nested calls are admitted, the call that would follow
    the last admitted one raises RecursionError; the blocks of the [depth]
    calls made before it are on the circuit. *)
Lemma QFT_rotations_recursion_limit (depth : nat) : forall (c : ref) (n : Z) w,
  0 <= n <= float_max_exp + 1 -> (depth <= Z.to_nat n)%nat ->
  QuantumFourierTransform.rotations depth c n w
  = (Raise RecursionError,
     emit_all c (concat (map QFT_block (take depth (reverse (range n))))) w).
Proof.
  induction depth as [|depth IH]; intros c n w Hn Hdepth.
  - simpl. by rewrite emit_all_nil.
  - simpl. destruct (n =? 0) eqn:E; [lia|].
    apply Z.eqb_neq in E. py_emit.
    erewrite bind_Ok by (apply QFT_cp_loop; lia).
    erewrite bind_Raise by (apply IH; lia).
    rewrite !emit_all_app.
    rewrite (range_snoc n) by lia. rewrite reverse_snoc. reflexivity.
Qed.

(** From 1025 qubits on, the first angle [np.pi / 2**(n-1)] cannot be
    computed. *)
Lemma QFT_rotations_overflow (depth : nat) (c : ref) (n : Z) w :
  float_max_exp + 1 < n ->
  QuantumFourierTransform.rotations (S depth) c n w
  = (Raise OverflowError, emit_all c [H (n - 1)] w).
Proof.
  intros Hn. assert (Hmax : float_max_exp = 1023) by reflexivity.
  simpl. destruct (n =? 0) eqn:E; [lia|].
  py_emit. apply bind_Raise. unfold range.
  rewrite seqZ_cons by lia. simpl.
  apply bind_Raise. apply bind_Raise. unfold lift, pi_over_2pow.
  destruct (n - 1 - 0 <=? float_max_exp) eqn:E'; [lia|]. reflexivity.
Qed.

Lemma QFT_swap_registers_ok (c : ref) (n : Z) w :
  QuantumFourierTransform.swap_registers c n w
  = (Ok c, emit_all c (QFT_swaps n) w).
Proof.
  unfold QuantumFourierTransform.swap_registers. py_loop.
  unfold ret, QFT_swaps. do 2 f_equal.
  apply map_ext. intros q. f_equal. lia.
Qed.

(** [algorithm] on an instance whose attributes are the circuit object [c]
    and the number [n]: the gate calls are made on [c] itself, after
    whatever [c] already holds. *)
Lemma QFT_algorithm_appends (self : instance) (c : ref) (n : Z)
    (depth : nat) (draw : bool) w :
  self !! "circuit" = Some (VRef c) -> self !! "n" = Some (VInt n) ->
  0 <= n <= float_max_exp + 1 -> (Z.to_nat n < depth)%nat ->
  QuantumFourierTransform.algorithm depth self draw w
  = (Ok c, emit_all c (QFT_circuit n) w).
Proof.
  intros Hc Hn Hrange Hdepth. unfold QuantumFourierTransform.algorithm.
  erewrite bind_Ok by (unfold attr_ref, getattr; rewrite Hc; reflexivity).
  erewrite bind_Ok by (unfold attr_int, getattr; rewrite Hn; reflexivity).
  erewrite bind_Ok by (by apply QFT_rotations_ok).
  cbv beta iota.
  erewrite bind_Ok by (unfold attr_int, getattr; rewrite Hn; reflexivity).
  erewrite bind_Ok by apply QFT_swap_registers_ok.
  unfold ret, QFT_circuit. by rewrite emit_all_app.
Qed.

Lemma QFT_init_eq (n : Z) w :
  QuantumFourierTransform.init n w
  = (Ok (<["circuit" := VRef (length (heap w))]> (<["n" := VInt n]> ∅)),
     mkWorld (heap w ++ [mkCircuit n 0 []]) (np_random w)).
Proof. reflexivity. Qed.

Example QFT_algorithm_3 :
  exists self w1 w2,
    QuantumFourierTransform.init 3 (mkWorld [] 0) = (Ok self, w1)
    /\ QuantumFourierTransform.algorithm 4 self false w1 = (Ok 0%nat, w2)
    /\ gates_of w2 0%nat
       = [H 2; CP (PiOver2Pow 2) 0 2; CP (PiOver2Pow 1) 1 2;
          H 1; CP (PiOver2Pow 1) 0 1; H 0; SWAP 0 2].
Proof.
  do 3 eexists. split; [reflexivity|]. split; vm_compute; reflexivity.
Qed.

(** No instance of 1000 qubits or more gets through [algorithm] under the
    stock recursion limit, however few frames the callers use. *)
Lemma QFT_algorithm_stock_limit (n : Z) (draw : bool) (w : world)
    (depth : nat) :
  (depth <= stock_recursion_limit)%nat -> 1000 <= n ->
  exists self w1 e w2,
    QuantumFourierTransform.init n w = (Ok self, w1)
    /\ QuantumFourierTransform.algorithm depth self draw w1 = (Raise e, w2).
Proof.
  unfold stock_recursion_limit. intros Hdepth Hn.
  do 2 eexists. rewrite QFT_init_eq.
  unfold QuantumFourierTransform.algorithm.
  destruct (decide (n <= 1024)) as [Hle|Hgt].
  - do 2 eexists. split; [reflexivity|].
    erewrite bind_Ok by (attr_lookup; reflexivity).
    erewrite bind_Ok by (attr_lookup; reflexivity).
    apply bind_Raise. apply QFT_rotations_recursion_limit.
    + unfold float_max_exp. lia.
    + lia.
  - destruct depth as [|depth].
    + do 2 eexists. split; [reflexivity|].
      erewrite bind_Ok by (attr_lookup; reflexivity).
      erewrite bind_Ok by (attr_lookup; reflexivity).
      apply bind_Raise. reflexivity.
    + do 2 eexists. split; [reflexivity|].
      erewrite bind_Ok by (attr_lookup; reflexivity).
      erewrite bind_Ok by (attr_lookup; reflexivity).
      apply bind_Raise. apply QFT_rotations_overflow.
      unfold float_max_exp. lia.
Qed.

(** C6, as the code has it: for every number of qubits [n] from 0 to 1024,
    a fresh instance's [algorithm] emits exactly the textbook sequence
    whenever the interpreter's recursion limit admits the [n + 1] nested
    calls of [rotations]: for [k = n-1] down to [0] a Hadamard gate on [k]
    followed by the controlled phases of angle pi/2^(k-q), control [q],
    target [k], for each [q < k], and afterwards the swaps of [q] with
    [n-1-q] for each [q < n//2].  When the limit admits [n] nested calls or
    fewer, [algorithm] raises RecursionError instead; under the stock limit
    of 1000 that is the case from [n = 1000] at the latest. *)
Theorem C6_textbook_sequence (n : Z) (draw : bool) (w : world) :
  0 <= n <= 1024 ->
  exists self w1,
    QuantumFourierTransform.init n w = (Ok self, w1)
    /\ (forall depth, (Z.to_nat n < depth)%nat ->
        exists c w2,
          QuantumFourierTransform.algorithm depth self draw w1 = (Ok c, w2)
          /\ gates_of w2 c = QFT_circuit n)
    /\ (forall depth, (depth <= Z.to_nat n)%nat ->
        exists w2,
          QuantumFourierTransform.algorithm depth self draw w1
          = (Raise RecursionError, w2)).
Proof.
  intros Hn. do 2 eexists. split; [apply QFT_init_eq|]. split.
  - intros depth Hdepth. do 2 eexists. split.
    + apply QFT_algorithm_appends;
        [ by rewrite lookup_insert_eq
        | rewrite lookup_insert_ne by discriminate; by rewrite lookup_insert_eq
        | unfold float_max_exp; lia
        | done ].
    + apply gates_of_fresh.
  - intros depth Hdepth. eexists.
    unfold QuantumFourierTransform.algorithm.
    erewrite bind_Ok by (attr_lookup; reflexivity).
    erewrite bind_Ok by (attr_lookup; reflexivity).
    apply bind_Raise. apply QFT_rotations_recursion_limit; [|done].
    unfold float_max_exp. lia.
Qed.

Lemma C6_textbook_sequence_witness :
  exists self w1,
    QuantumFourierTransform.init 3 (mkWorld [] 0) = (Ok self, w1)
    /\ (forall depth, (Z.to_nat 3 < depth)%nat ->
        exists c w2,
          QuantumFourierTransform.algorithm depth self false w1 = (Ok c, w2)
          /\ gates_of w2 c = QFT_circuit 3)
    /\ (forall depth, (depth <= Z.to_nat 3)%nat ->
        exists w2,
          QuantumFourierTransform.algorithm depth self false w1
          = (Raise RecursionError, w2)).
Proof. apply (C6_textbook_sequence 3 false (mkWorld [] 0)). lia. Defined.

(** C6 as stated, for every [n >= 0], fails at 1025 qubits: the angle
    [np.pi / 2**1024] of the first controlled phase cannot be computed and
    [algorithm] raises OverflowError, or RecursionError when no call of
    [rotations] is admitted at all. *)
Lemma C6_counterexample_1025 :
  ~ (forall n : Z, 0 <= n ->
       exists self w1 depth c w2,
         QuantumFourierTransform.init n (mkWorld [] 0) = (Ok self, w1)
         /\ QuantumFourierTransform.algorithm depth self false w1
            = (Ok c, w2)
         /\ gates_of w2 c = QFT_circuit n).
Proof.
  intros Hall.
  destruct (Hall 1025 ltac:(lia)) as (self & w1 & depth & c & w2 & Hi & Ha & _).
  rewrite QFT_init_eq in Hi. injection Hi as <- <-.
  unfold QuantumFourierTransform.algorithm in Ha.
  erewrite bind_Ok in Ha by (attr_lookup; reflexivity).
  erewrite bind_Ok in Ha by (attr_lookup; reflexivity).
  destruct depth as [|depth].
  - discriminate Ha.
  - erewrite bind_Raise in Ha
      by (apply QFT_rotations_overflow; unfold float_max_exp; lia).
    discriminate Ha.
Qed.




Lemma QFT_circuit_nonempty (n : Z) : 0 < n -> QFT_circuit n <> [].
Proof.
  intros Hn. unfold QFT_circuit. rewrite (QFT_rotations_step n Hn).
  discriminate.
Qed.

(** C3, what the code does: the instance made by
    [QuantumFourierTransform.__init__] keeps its circuit object, and every
    call of [algorithm] makes its gate calls on that same object.  After the
    first call the object holds the textbook sequence; the second call
    returns the same object holding the sequence twice.  Both calls are made
    with [depth] nested calls of [rotations] admitted by the interpreter's
    recursion limit, more than [n]. *)
Theorem C3_algorithm_twice_accumulates (n : Z) (draw : bool) (w : world)
    (depth : nat) :
  1 <= n <= 1024 -> (Z.to_nat n < depth)%nat ->
  exists self c w1 w2 w3,
    QuantumFourierTransform.init n w = (Ok self, w1)
    /\ QuantumFourierTransform.algorithm depth self draw w1 = (Ok c, w2)
    /\ gates_of w2 c = QFT_circuit n
    /\ QuantumFourierTransform.algorithm depth self draw w2 = (Ok c, w3)
    /\ gates_of w3 c = QFT_circuit n ++ QFT_circuit n
    /\ gates_of w3 c <> gates_of w2 c.
Proof.
  intros Hn Hdepth.
  assert (Hattr_c : (<["circuit" := VRef (length (heap w))]>
                       (<["n" := VInt n]> ∅) : instance) !! "circuit"
                    = Some (VRef (length (heap w))))
    by (by rewrite lookup_insert_eq).
  assert (Hattr_n : (<["circuit" := VRef (length (heap w))]>
                       (<["n" := VInt n]> ∅) : instance) !! "n"
                    = Some (VInt n)).
  { rewrite lookup_insert_ne by discriminate. by rewrite lookup_insert_eq. }
  assert (Hmax : 0 <= n <= float_max_exp + 1) by (unfold float_max_exp; lia).
  do 5 eexists. split; [apply QFT_init_eq|].
  split; [by apply QFT_algorithm_appends|].
  split; [apply gates_of_fresh|].
  split; [by apply QFT_algorithm_appends|].
  rewrite emit_all_app, !gates_of_fresh. split; [reflexivity|].
  intros Heq. apply (QFT_circuit_nonempty n); [lia|].
  apply (f_equal length) in Heq. rewrite length_app in Heq.
  apply length_zero_iff_nil. lia.
Qed.

Lemma C3_algorithm_twice_accumulates_witness :
  exists self c w1 w2 w3,
    QuantumFourierTransform.init 1 (mkWorld [] 0) = (Ok self, w1)
    /\ QuantumFourierTransform.algorithm 2 self false w1 = (Ok c, w2)
    /\ gates_of w2 c = QFT_circuit 1
    /\ QuantumFourierTransform.algorithm 2 self false w2 = (Ok c, w3)
    /\ gates_of w3 c = QFT_circuit 1 ++ QFT_circuit 1
    /\ gates_of w3 c <> gates_of w2 c.
Proof.
  apply (C3_algorithm_twice_accumulates 1 false (mkWorld [] 0) 2); simpl; lia.
Defined.

Example QFT_algorithm_twice_1 :
  exists self w1 w2 w3,
    QuantumFourierTransform.init 1 (mkWorld [] 0) = (Ok self, w1)
    /\ QuantumFourierTransform.algorithm 2 self false w1 = (Ok 0%nat, w2)
    /\ gates_of w2 0%nat = [H 0]
    /\ QuantumFourierTransform.algorithm 2 self false w2 = (Ok 0%nat, w3)
    /\ gates_of w3 0%nat = [H 0; H 0].
Proof.
  do 4 eexists. split; [reflexivity|].
  split; [vm_compute; reflexivity|]. split; [vm_compute; reflexivity|].
  split; vm_compute; reflexivity.
Qed.

(** ** The backend filters of [run_quantum_hardware] *)

(** The sibling classes read attributes their constructors set. *)
Lemma DJ_backend_filter_ok (type : string) (num_bits : Z) self x :
  DeutschJozsa.init type num_bits = Ok self ->
  exists keep, DeutschJozsa.backend_filter self x = Ok keep.
Proof.
  unfold DeutschJozsa.init. intros Hi.
  destruct (bool_decide (type = "constant") || bool_decide (type = "balanced"));
    [|discriminate].
  injection Hi as <-. unfold DeutschJozsa.backend_filter. attr_lookup.
  unfold and_then. destruct (n_qubits x >=? num_bits + 1); eauto.
  destruct (negb (simulator x)); eauto.
Qed.

Lemma Simon_backend_filter_ok (bitstring : string) x :
  exists self,
    SimonProblem.init bitstring = Ok self
    /\ exists keep, SimonProblem.backend_filter self x = Ok keep.
Proof.
  eexists. split; [reflexivity|].
  unfold SimonProblem.backend_filter. attr_lookup.
  unfold and_then. destruct (n_qubits x >=? len bitstring); eauto.
  destruct (negb (simulator x)); eauto.
Qed.

(** C1, what the code does: the filter of
    [BernsteinVazirani.run_quantum_hardware] reads [self.num_bits] and the
    one of [QuantumPhaseEstimation.run_quantum_hardware] reads [self.n];
    neither constructor sets that attribute, so on every instance and every
    backend the filter raises AttributeError, and so does the selection of
    backends as soon as the provider lists one. *)
Theorem C1_hardware_filters_raise (num_qubits : Z) (bitstring : string)
    (n_counting_qubits : Z) (angle : QArith_base.Q)
    (x : backend) (provider : list backend) :
  (exists self,
      BernsteinVazirani.init num_qubits bitstring = Ok self
      /\ BernsteinVazirani.backend_filter self x
         = Raise (AttributeError "num_bits")
      /\ BernsteinVazirani.run_quantum_hardware_candidates self (x :: provider)
         = Raise (AttributeError "num_bits"))
  /\ (exists self,
      QuantumPhaseEstimation.init n_counting_qubits angle = Ok self
      /\ QuantumPhaseEstimation.backend_filter self x
         = Raise (AttributeError "n")
      /\ QuantumPhaseEstimation.run_quantum_hardware_candidates self
           (x :: provider)
         = Raise (AttributeError "n")).
Proof.
  split; eexists; (split; [reflexivity|]).
  - assert (Hf : BernsteinVazirani.backend_filter
                   (<["bitstring" := VStr bitstring]>
                      (<["n" := VInt num_qubits]> ∅)) x
                 = Raise (AttributeError "num_bits")).
    { unfold BernsteinVazirani.backend_filter. by attr_lookup. }
    split; [exact Hf|].
    unfold BernsteinVazirani.run_quantum_hardware_candidates. simpl.
    by rewrite Hf.
  - assert (Hf : QuantumPhaseEstimation.backend_filter
                   (<["angle" := VAngle (TwoPiTimes angle)]>
                      (<["n_counting_qubits" := VInt n_counting_qubits]> ∅)) x
                 = Raise (AttributeError "n")).
    { unfold QuantumPhaseEstimation.backend_filter. by attr_lookup. }
    split; [exact Hf|].
    unfold QuantumPhaseEstimation.run_quantum_hardware_candidates. simpl.
    by rewrite Hf.
Qed.

(** ** Computations that only make gate calls on one circuit object *)

Lemma emits_where_ret {A} P c (a : A) : emits_where P c (ret a).
Proof. intros w. exists (Ok a), []. by rewrite emit_all_nil. Qed.

Lemma emits_where_lift {A} P c (r : result A) : emits_where P c (lift r).
Proof. intros w. exists r, []. by rewrite emit_all_nil. Qed.

Lemma emits_where_emit (P : instruction -> Prop) c g :
  P g -> emits_where P c (emit c g).
Proof. intros Hg w. exists (Ok tt), [g]. split; [done|]. by constructor. Qed.

Lemma emits_where_bind {A B} P c (m : Py A) (k : A -> Py B) :
  emits_where P c m -> (forall a, emits_where P c (k a)) ->
  emits_where P c (bind m k).
Proof.
  intros Hm Hk w. destruct (Hm w) as (r & gs & Hr & Hgs).
  unfold bind. rewrite Hr. destruct r as [a|e].
  - destruct (Hk a (emit_all c gs w)) as (r' & gs' & Hr' & Hgs').
    exists r', (gs ++ gs'). rewrite Hr', emit_all_app.
    split; [done|]. by apply Forall_app_2.
  - by exists (Raise e), gs.
Qed.

Lemma emits_where_for_each {A} P c (l : list A) (body : A -> Py unit) :
  (forall x, x ∈ l -> emits_where P c (body x)) ->
  emits_where P c (for_each l body).
Proof.
  induction l as [|x l IH]; intros Hbody; simpl.
  - apply emits_where_ret.
  - apply emits_where_bind; [apply Hbody; left|].
    intros _. apply IH. intros y Hy. apply Hbody. by right.
Qed.

#[local] Hint Resolve emits_where_ret emits_where_lift emits_where_bind
  : emits.

(** ** Quantum Phase Estimation *)

(** [qft_inverse] only makes gate calls on its circuit, none of them a
    controlled phase onto qubit [n], and returns that circuit object unless
    an angle cannot be computed. *)
Lemma QPE_qft_inverse_emits (c : ref) (n : Z) w :
  exists r gs, QuantumPhaseEstimation.qft_inverse c n w = (r, emit_all c gs w)
               /\ (r = Ok c \/ exists e, r = Raise e)
               /\ Forall (no_phase_onto n) gs.
Proof.
  assert (Hall : emits_where (no_phase_onto n) c
                   (QuantumPhaseEstimation.qft_inverse c n)).
  { unfold QuantumPhaseEstimation.qft_inverse.
    apply emits_where_bind.
    { apply emits_where_for_each. intros q _. by apply emits_where_emit. }
    intros _. apply emits_where_bind; [|auto with emits].
    apply emits_where_for_each. intros j Hj. apply elem_of_range in Hj.
    apply emits_where_bind; [|intros _; by apply emits_where_emit].
    apply emits_where_for_each. intros m _.
    apply emits_where_bind; [auto with emits|].
    intros theta. apply emits_where_emit. simpl. lia. }
  destruct (Hall w) as (r & gs & Hr & Hgs). exists r, gs.
  split; [done|]. split; [|done].
  destruct r as [x|e]; [left|right; eauto].
  unfold QuantumPhaseEstimation.qft_inverse, bind in Hr.
  destruct (for_each (range (n / 2)) _ w) as [[[]|?] w1]; [|discriminate].
  destruct (for_each (range n) _ w1) as [[[]|?] w2]; [|discriminate].
  unfold ret in Hr. congruence.
Qed.

Lemma concat_map_singleton_const {A} (g : instruction) (l : list A) :
  concat (map (fun _ => [g]) l) = replicate (length l) g.
Proof. induction l; simpl; by f_equal. Qed.

Section ControlledU.
Variables (self : instance) (a : angle) (n : Z) (c : ref).
Hypothesis Hangle : self !! "angle" = Some (VAngle a).
Hypothesis Hn : self !! "n_counting_qubits" = Some (VInt n).

Lemma QPE_repetitions_loop (i reps : Z) w :
  for_each (range reps) (fun _ =>
     angle <~ attr_angle self "angle" ;;
     n' <~ attr_int self "n_counting_qubits" ;;
     emit c (CP angle i n')) w
  = (Ok tt, emit_all c (replicate (Z.to_nat reps) (CP a i n)) w).
Proof.
  rewrite (for_each_emit _ _ (fun _ => [CP a i n]) c).
  - rewrite concat_map_singleton_const. unfold range.
    by rewrite length_seqZ.
  - intros _ w0 _. unfold bind, attr_angle, attr_int, lift, getattr.
    by rewrite Hangle, Hn.
Qed.

Lemma QPE_controlled_U_fold (l : list Z) : forall reps w,
  for_fold l reps (fun counting_qubit repetitions =>
      for_each (range repetitions) (fun _ =>
        angle <~ attr_angle self "angle" ;;
        n' <~ attr_int self "n_counting_qubits" ;;
        emit c (CP angle counting_qubit n')) ;;;
      ret (repetitions * 2)) w
  = (Ok (reps * 2 ^ Z.of_nat (length l)),
     emit_all c (controlled_U_gates a n reps l) w).
Proof.
  induction l as [|i l IH]; intros reps w; simpl for_fold.
  - unfold ret. simpl. rewrite emit_all_nil. do 2 f_equal. lia.
  - erewrite bind_Ok; [|erewrite bind_Ok by apply QPE_repetitions_loop;
                        reflexivity].
    rewrite IH, emit_all_app. simpl controlled_U_gates. do 2 f_equal.
    rewrite <- Z.mul_assoc. f_equal.
    replace (Z.of_nat (length (i :: l))) with (Z.succ (Z.of_nat (length l)))
      by (simpl; lia).
    by rewrite Z.pow_succ_r by lia.
Qed.

Lemma controlled_U_gates_seqZ (k : nat) : forall (m reps : Z),
  0 <= reps ->
  controlled_U_gates a n reps (seqZ m (Z.of_nat k))
  = concat (map (fun i => replicate (Z.to_nat (reps * 2 ^ (i - m))) (CP a i n))
                (seqZ m (Z.of_nat k))).
Proof.
  induction k as [|k IH]; intros m reps Hreps; [reflexivity|].
  rewrite seqZ_cons by lia.
  replace (Z.pred (Z.of_nat (S k))) with (Z.of_nat k) by lia.
  simpl. rewrite Z.sub_diag, Z.mul_1_r. f_equal.
  rewrite IH by lia. f_equal. apply map_ext_in. intros i Hi.
  apply list_elem_of_In, elem_of_seqZ in Hi.
  do 2 f_equal. replace (i - m) with (Z.succ (i - Z.succ m)) by lia.
  rewrite Z.pow_succ_r by lia. lia.
Qed.
End ControlledU.

Lemma QPE_controlled_U_layer_eq (a : angle) (n : Z) :
  controlled_U_gates a n 1 (range n) = QPE_controlled_U_layer a n.
Proof.
  unfold QPE_controlled_U_layer, range.
  destruct (decide (0 <= n)) as [Hn|Hn].
  - rewrite <- (Z2Nat.id n Hn).
    rewrite controlled_U_gates_seqZ by lia. f_equal.
    apply map_ext. intros i. do 2 f_equal. rewrite Z.sub_0_r. lia.
  - by rewrite seqZ_nil by lia.
Qed.

Lemma QPE_controlled_U_ok (self : instance) (a : angle) (n : Z) (c : ref) w :
  self !! "angle" = Some (VAngle a) ->
  self !! "n_counting_qubits" = Some (VInt n) ->
  QuantumPhaseEstimation.controlled_U self c n 1 w
  = (Ok (2 ^ Z.max 0 n), emit_all c (QPE_controlled_U_layer a n) w).
Proof.
  intros Ha Hn. unfold QuantumPhaseEstimation.controlled_U.
  rewrite (QPE_controlled_U_fold self a n c Ha Hn).
  rewrite QPE_controlled_U_layer_eq. do 2 f_equal.
  unfold range. rewrite length_seqZ, Z.mul_1_l. f_equal. lia.
Qed.

Lemma occurrences_app g gs1 gs2 :
  occurrences g (gs1 ++ gs2) = (occurrences g gs1 + occurrences g gs2)%nat.
Proof. unfold occurrences. by rewrite filter_app, length_app. Qed.

Lemma occurrences_replicate_eq g k : occurrences g (replicate k g) = k.
Proof.
  unfold occurrences. induction k as [|k IH]; simpl; [done|].
  rewrite filter_cons_True by done. simpl. by rewrite IH.
Qed.

Lemma occurrences_replicate_ne g g' k :
  g' <> g -> occurrences g (replicate k g') = 0%nat.
Proof.
  intros Hne. unfold occurrences. induction k as [|k IH]; simpl; [done|].
  by rewrite filter_cons_False.
Qed.

Lemma occurrences_layer (a : angle) (n i : Z) (f : Z -> nat) (l : list Z) :
  NoDup l ->
  occurrences (CP a i n) (concat (map (fun j => replicate (f j) (CP a j n)) l))
  = if decide (i ∈ l) then f i else 0%nat.
Proof.
  induction 1 as [|j l Hj Hnd IH]; cbn [map concat].
  - by rewrite decide_False by apply not_elem_of_nil.
  - rewrite occurrences_app, IH. destruct (decide (j = i)) as [Heq|Hne].
    + subst j. rewrite occurrences_replicate_eq.
      rewrite (decide_False (P := i ∈ l)) by done.
      rewrite decide_True by left. lia.
    + rewrite occurrences_replicate_ne by congruence.
      destruct (decide (i ∈ l)) as [Hin|Hnin].
      * rewrite decide_True by (by right). done.
      * rewrite decide_False; [done|].
        intros [?|?]%elem_of_cons; congruence.
Qed.

Example QPE_algorithm_2 :
  exists self w',
    QuantumPhaseEstimation.init 2 (QArith_base.Qmake 1 4) = Ok self
    /\ QuantumPhaseEstimation.algorithm_default self (mkWorld [] 0)
       = (Ok 0%nat, w')
    /\ gates_of w' 0%nat
       = let a := TwoPiTimes (QArith_base.Qmake 1 4) in
         [H 0; H 1; CP a 0 2; CP a 1 2; CP a 1 2; Barrier;
          SWAP 0 1; H 0; CP (NegPiOver2Pow 1) 0 1; H 1; Barrier;
          Measure 0 0; Measure 1 1].
Proof. do 2 eexists. split; [reflexivity|]. split; vm_compute; reflexivity. Qed.

(** ** Simon's problem: [bdotz] *)

Lemma int_of_char_bit (c : ascii) :
  c = "0"%char \/ c = "1"%char -> int_of_char c = Ok (bit_value c).
Proof. intros [-> | ->]; reflexivity. Qed.

Lemma inner_product_snoc (b z : list ascii) (x y : ascii) :
  length b = length z ->
  inner_product (b ++ [x]) (z ++ [y])
  = inner_product b z + bit_value x * bit_value y.
Proof.
  intros Hlen. unfold inner_product. rewrite zip_with_app by done.
  simpl. generalize (zip_with (fun x0 y0 => bit_value x0 * bit_value y0) b z).
  intros l. induction l as [|v l IH]; simpl; [lia|]. rewrite IH. lia.
Qed.

(** The accumulation loop of [bdotz] after [k] iterations. *)
Lemma bdotz_loop (b z : list ascii) (k : nat) :
  length b = length z ->
  Forall (fun c => c = "0"%char \/ c = "1"%char) b ->
  Forall (fun c => c = "0"%char \/ c = "1"%char) z ->
  (k <= length b)%nat ->
  fold_left (fun (acc : result Z) (i : Z) =>
      rbind acc (fun accum =>
      rbind (getitem b i) (fun bi =>
      rbind (int_of_char bi) (fun bv =>
      rbind (getitem z i) (fun zi =>
      rbind (int_of_char zi) (fun zv =>
      Ok (accum + bv * zv)))))))
    (seqZ 0 (Z.of_nat k)) (Ok 0)
  = Ok (inner_product (take k b) (take k z)).
Proof.
  intros Hlen Hb Hz. induction k as [|k IH]; intros Hk; [reflexivity|].
  rewrite seqZ_S, fold_left_app, IH by lia. simpl.
  destruct (lookup_lt_is_Some_2 b k ltac:(lia)) as [x Hx].
  destruct (lookup_lt_is_Some_2 z k ltac:(lia)) as [y Hy].
  rewrite Z.add_0_l.
  rewrite (getitem_lookup b _ x) by (lia || by rewrite Nat2Z.id). simpl.
  rewrite int_of_char_bit
    by (rewrite Forall_forall in Hb; apply Hb;
        by eapply list_elem_of_lookup_2).
  simpl. rewrite (getitem_lookup z _ y) by (lia || by rewrite Nat2Z.id).
  simpl. rewrite int_of_char_bit
    by (rewrite Forall_forall in Hz; apply Hz;
        by eapply list_elem_of_lookup_2).
  simpl. rewrite (take_S_r b k x Hx), (take_S_r z k y Hy).
  rewrite inner_product_snoc; [done|].
  rewrite !length_take. lia.
Qed.

Example bdotz_110_011 : SimonProblem.bdotz "110" "011" = Ok 1.
Proof. reflexivity. Qed.

Example bdotz_110_110 : SimonProblem.bdotz "110" "110" = Ok 0.
Proof. reflexivity. Qed.

(** C10: for two bit strings [b] and [z] of equal length, [bdotz(b, z)]
    returns their inner product modulo 2, the sum over [i] of
    [b[i] * z[i]] taken mod 2, which is 0 or 1. *)
Theorem C10_bdotz_inner_product (b z : string) :
  len b = len z -> is_bitstring b -> is_bitstring z ->
  SimonProblem.bdotz b z = Ok (inner_product (chars b) (chars z) mod 2)
  /\ (inner_product (chars b) (chars z) mod 2 = 0
      \/ inner_product (chars b) (chars z) mod 2 = 1).
Proof.
  intros Hlen Hb Hz. unfold len in Hlen. split.
  - unfold SimonProblem.bdotz, range, len.
    rewrite (bdotz_loop (chars b) (chars z) (length (chars b)))
      by (done || lia).
    simpl. rewrite !take_ge by lia. reflexivity.
  - pose proof (Z.mod_pos_bound (inner_product (chars b) (chars z)) 2
                  ltac:(lia)). lia.
Qed.

Lemma C10_bdotz_inner_product_witness :
  SimonProblem.bdotz "110" "011"
  = Ok (inner_product (chars "110") (chars "011") mod 2)
  /\ (inner_product (chars "110") (chars "011") mod 2 = 0
      \/ inner_product (chars "110") (chars "011") mod 2 = 1).
Proof.
  apply (C10_bdotz_inner_product "110" "011");
    [reflexivity | bitstring_literal | bitstring_literal].
Defined.

(** ** Simon's problem: the permutation loop *)

Lemma filter_length_le {A} (P Q : A -> Prop)
    `{!forall x, Decision (P x)} `{!forall x, Decision (Q x)} (l : list A) :
  (forall x, x ∈ l -> Q x -> P x) ->
  (length (filter Q l) <= length (filter P l))%nat.
Proof.
  induction l as [|y l IH]; intros HQP; [done|].
  assert (IH' : (length (filter Q l) <= length (filter P l))%nat).
  { apply IH. intros x Hx. apply HQP. by right. }
  destruct (decide (Q y)) as [HQ|HQ].
  - rewrite (filter_cons_True Q) by done.
    rewrite (filter_cons_True P) by (apply HQP; [left|done]). simpl. lia.
  - rewrite (filter_cons_False Q) by done.
    destruct (decide (P y)).
    + rewrite (filter_cons_True P) by done. simpl. lia.
    + by rewrite (filter_cons_False P).
Qed.

Lemma filter_length_lt {A} (P Q : A -> Prop)
    `{!forall x, Decision (P x)} `{!forall x, Decision (Q x)}
    (l : list A) (k : A) :
  k ∈ l -> P k -> ~ Q k ->
  (forall x, x ∈ l -> Q x -> P x) ->
  (length (filter Q l) < length (filter P l))%nat.
Proof.
  induction l as [|y l IH]; intros Hk HP HQ HQP.
  { by apply elem_of_nil in Hk. }
  assert (Htail : forall x, x ∈ l -> Q x -> P x).
  { intros x Hx. apply HQP. by right. }
  apply elem_of_cons in Hk as [<-|Hk].
  - rewrite (filter_cons_False Q), (filter_cons_True P) by done. simpl.
    pose proof (filter_length_le P Q l Htail). lia.
  - specialize (IH Hk HP HQ Htail).
    destruct (decide (Q y)) as [HQy|HQy].
    + rewrite (filter_cons_True Q) by done.
      rewrite (filter_cons_True P) by (apply HQP; [left|done]). simpl. lia.
    + rewrite (filter_cons_False Q) by done.
      destruct (decide (P y)).
      * rewrite (filter_cons_True P) by done. simpl. lia.
      * by rewrite (filter_cons_False P).
Qed.

(** Reading the list after the two assignments of the tuple swap. *)
Lemma swap_lookup (l : list Z) (i k j : nat) (a ak : Z) :
  (i < length l)%nat -> (k < length l)%nat -> i <> k ->
  <[k := a]> (<[i := ak]> l) !! j
  = if decide (j = k) then Some a
    else if decide (j = i) then Some ak else l !! j.
Proof.
  intros Hi Hk Hik. destruct (decide (j = k)) as [->|Hjk].
  - by rewrite list_lookup_insert_eq by (by rewrite length_insert).
  - rewrite list_lookup_insert_ne by done.
    destruct (decide (j = i)) as [->|Hji].
    + by rewrite list_lookup_insert_eq.
    + by rewrite list_lookup_insert_ne.
Qed.

Lemma setitem_insert {A} (l : list A) (i : nat) (v : A) :
  (i < length l)%nat -> setitem l (Z.of_nat i) v = Ok (<[i := v]> l).
Proof.
  intros Hi. unfold setitem.
  destruct (Z.of_nat i <? 0) eqn:E1; [lia|]. rewrite E1.
  destruct (Z.of_nat (length l) <=? Z.of_nat i) eqn:E2; [lia|].
  simpl. by rewrite Nat2Z.id.
Qed.

Lemma getitem_nat {A} (l : list A) (i : nat) (x : A) :
  l !! i = Some x -> getitem l (Z.of_nat i) = Ok x.
Proof. intros Hx. apply getitem_lookup; [lia|]. by rewrite Nat2Z.id. Qed.

Lemma index_elem_of (l : list Z) (x : Z) :
  x ∈ l -> exists k, index l x = Ok (Z.of_nat k) /\ l !! k = Some x.
Proof.
  intros Hx. unfold index.
  destruct (list_find_elem_of (fun y => y = x) l x Hx eq_refl) as [[k y] Hf].
  rewrite Hf. apply list_find_Some in Hf as (Hk & -> & _). eauto.
Qed.

Section PermuteLoop.
Variables (c : ref) (p : list Z).
Let n : Z := Z.of_nat (length p).

(** One swap keeps the invariant and repairs at least one position. *)
Lemma permute_swap_step (I k : nat) (ip : list Z) (a b ak : Z) :
  permute_inv n p (Z.of_nat I) ip ->
  ip !! I = Some a -> p !! I = Some b -> a <> b ->
  p !! k = Some a -> ip !! k = Some ak ->
  permute_inv n p (Z.of_nat I) (<[k := a]> (<[I := ak]> ip))
  /\ (mismatches p (<[k := a]> (<[I := ak]> ip)) < mismatches p ip)%nat.
Proof.
  intros (Hi & Hlen & Hinj & Hmem & Hpre) HipI HpI Hab Hpk Hipk.
  assert (HI : (I < length ip)%nat) by (by eapply lookup_lt_Some).
  assert (Hk : (k < length ip)%nat) by (by eapply lookup_lt_Some).
  assert (HIk : I <> k) by (intros ->; congruence).
  assert (Hak : ak <> a).
  { intros ->. apply HIk. by apply (Hinj I k a). }
  split; [split; [done|]; split; [|split; [|split]]|].
  - by rewrite !length_insert.
  - intros j1 j2 x. rewrite !swap_lookup by done.
    assert (E1 : forall j, ip !! j = Some a -> j = I)
      by (intros j Hj; by apply (Hinj j I a)).
    assert (E2 : forall j, ip !! j = Some ak -> j = k)
      by (intros j Hj; by apply (Hinj j k ak)).
    repeat case_decide; intros ? ?; simplify_eq; try done;
      try (by exfalso; eauto).
    by apply (Hinj j1 j2 x).
  - intros j x. rewrite swap_lookup by done.
    repeat case_decide; intros ?; simplify_eq; eauto.
  - intros j Hj. rewrite Nat2Z.id in Hj. rewrite swap_lookup by done.
    repeat case_decide; simplify_eq; try done; try lia.
    apply Hpre. rewrite Nat2Z.id. lia.
  - unfold mismatches.
    apply (filter_length_lt
             (fun j => ip !! j <> p !! j)
             (fun j => <[k := a]> (<[I := ak]> ip) !! j <> p !! j) _ k).
    + apply elem_of_seq. rewrite <- Hlen. lia.
    + rewrite Hipk, Hpk. congruence.
    + rewrite swap_lookup by done. rewrite decide_True by done.
      rewrite Hpk. intros Hne. by apply Hne.
    + intros j _. rewrite swap_lookup by done.
      repeat case_decide; simplify_eq; try done.
      intros _. rewrite HipI, HpI. congruence.
Qed.

Lemma permute_loop_unfold (fuel : nat) (i : Z) (ip : list Z) :
  SimonProblem.permute_loop (S fuel) c n p i ip
  = if i <? n then
      a <~ lift (getitem ip i) ;;
      b <~ lift (getitem p i) ;;
      if negb (a =? b) then
        a <~ lift (getitem ip i) ;;
        k <~ lift (index p a) ;;
        emit c (SWAP (n + i) (n + k)) ;;;
        at_k <~ lift (getitem ip k) ;;
        at_i <~ lift (getitem ip i) ;;
        ip1 <~ lift (setitem ip i at_k) ;;
        ip2 <~ lift (setitem ip1 k at_i) ;;
        SimonProblem.permute_loop fuel c n p i ip2
      else SimonProblem.permute_loop fuel c n p (i + 1) ip
    else ret (Some (i, ip)).
Proof. reflexivity. Qed.

(** With fuel above the remaining positions plus the mismatches, the loop
    leaves with [i = n] and [initial_position = permutation]. *)
Lemma permute_loop_terminates (fuel : nat) : forall (I : nat) ip w,
  permute_inv n p (Z.of_nat I) ip ->
  (length p - I + mismatches p ip < fuel)%nat ->
  exists gs,
    SimonProblem.permute_loop fuel c n p (Z.of_nat I) ip w
    = (Ok (Some (n, p)), emit_all c gs w).
Proof.
  induction fuel as [|fuel IH]; intros I ip w Hinv Hfuel; [lia|].
  pose proof Hinv as (Hi & Hlen & Hinj & Hmem & Hpre).
  rewrite permute_loop_unfold. destruct (Z.of_nat I <? n) eqn:Hlt.
  - apply Z.ltb_lt in Hlt. unfold n in Hlt, Hi.
    destruct (lookup_lt_is_Some_2 ip I ltac:(lia)) as [a Ha].
    destruct (lookup_lt_is_Some_2 p I ltac:(lia)) as [b Hb].
    erewrite bind_Ok by (unfold lift; by rewrite (getitem_nat ip I a Ha)).
    erewrite bind_Ok by (unfold lift; by rewrite (getitem_nat p I b Hb)).
    destruct (a =? b) eqn:Hab; cbv beta iota delta [negb].
    + apply Z.eqb_eq in Hab. subst b.
      replace (Z.of_nat I + 1) with (Z.of_nat (S I)) by lia.
      apply IH; [|lia].
      split; [lia|]. split; [done|]. split; [done|]. split; [done|].
      intros j Hj. rewrite Nat2Z.id in Hj.
      destruct (decide (j = I)) as [->|]; [congruence|].
      apply Hpre. rewrite Nat2Z.id. lia.
    + apply Z.eqb_neq in Hab.
      destruct (index_elem_of p a (Hmem I a Ha)) as (k & Hidx & Hpk).
      assert (Hk : (k < length ip)%nat).
      { rewrite Hlen. by eapply lookup_lt_Some. }
      destruct (lookup_lt_is_Some_2 ip k Hk) as [ak Hak].
      destruct (permute_swap_step I k ip a b ak Hinv Ha Hb Hab Hpk Hak)
        as [Hinv' Hmis].
      erewrite bind_Ok by (unfold lift; by rewrite (getitem_nat ip I a Ha)).
      erewrite bind_Ok by (unfold lift; by rewrite Hidx).
      py_emit.
      erewrite bind_Ok by (unfold lift; by rewrite (getitem_nat ip k ak Hak)).
      erewrite bind_Ok by (unfold lift; by rewrite (getitem_nat ip I a Ha)).
      erewrite bind_Ok
        by (unfold lift; rewrite setitem_insert by lia; reflexivity).
      erewrite bind_Ok
        by (unfold lift; rewrite setitem_insert
              by (rewrite length_insert; lia); reflexivity).
      destruct (IH I _ (emit_all c
                  [SWAP (n + Z.of_nat I) (n + Z.of_nat k)] w) Hinv'
                  ltac:(lia)) as [gs Hgs].
      eexists. rewrite Hgs, emit_all_app. reflexivity.
  - apply Z.ltb_ge in Hlt. unfold n in Hlt, Hi.
    assert (I = length p) by lia. subst I.
    exists []. unfold ret. rewrite emit_all_nil. do 4 f_equal.
    apply list_eq. intros j. destruct (decide (j < length p)%nat).
    + apply Hpre. rewrite Nat2Z.id. lia.
    + by rewrite !lookup_ge_None_2 by lia.
Qed.
End PermuteLoop.

Example permute_loop_example :
  SimonProblem.permute_loop 7 0%nat 3 [2; 0; 1] 0 (range 3)
    (mkWorld [mkCircuit 6 3 []] 0)
  = (Ok (Some (3, [2; 0; 1])),
     mkWorld [mkCircuit 6 3 [SWAP 3 4; SWAP 3 5]] 0).
Proof. vm_compute. reflexivity. Qed.

(** C8: for every [n] and every permutation of [0, ..., n-1], the
    while-loop of [SimonProblem.oracle] terminates: with enough fuel it
    leaves with [i = n] and [initial_position] equal to the permutation,
    having only made swap calls on the circuit. *)
Theorem C8_permute_loop_terminates (c : ref) (n : Z) (permutation : list Z)
    (w : world) :
  0 <= n -> permutation ≡ₚ range n ->
  exists bound : nat,
    forall fuel, (bound < fuel)%nat ->
      exists gs,
        SimonProblem.permute_loop fuel c n permutation 0 (range n) w
        = (Ok (Some (n, permutation)), emit_all c gs w).
Proof.
  intros Hn Hperm. exists (2 * length permutation)%nat. intros fuel Hfuel.
  assert (Hlen : length permutation = Z.to_nat n).
  { rewrite Hperm. unfold range. by rewrite length_seqZ. }
  assert (Hn' : n = Z.of_nat (length permutation)) by lia.
  clear Hlen Hn. subst n. change 0 with (Z.of_nat 0).
  apply permute_loop_terminates.
  - split; [lia|]. split; [unfold range; rewrite length_seqZ; lia|].
    split; [|split].
    + apply NoDup_alt. unfold range. apply NoDup_seqZ.
    + intros j x Hx. rewrite Hperm. by eapply list_elem_of_lookup_2.
    + intros j Hj. simpl in Hj. lia.
  - unfold mismatches.
    pose proof (length_filter
                  (fun j => range (Z.of_nat (length permutation)) !! j
                            <> permutation !! j)
                  (seq 0 (length permutation))) as Hf.
    rewrite length_seq in Hf. lia.
Qed.

Lemma C8_permute_loop_terminates_witness :
  exists bound : nat,
    forall fuel, (bound < fuel)%nat ->
      exists gs,
        SimonProblem.permute_loop fuel 0%nat 2 [1; 0] 0 (range 2)
          (mkWorld [mkCircuit 4 2 []] 0)
        = (Ok (Some (2, [1; 0])), emit_all 0%nat gs
                                    (mkWorld [mkCircuit 4 2 []] 0)).
Proof.
  apply (C8_permute_loop_terminates 0%nat 2 [1; 0]
           (mkWorld [mkCircuit 4 2 []] 0)); [lia|].
  change (range 2) with [0; 1]. apply perm_swap.
Defined.

(** ** Runs from equal generator states *)

Lemma lockstep_ret {A} (R : A -> A -> Prop) c1 c2 a1 a2 :
  R a1 a2 -> lockstep R c1 c2 (ret a1) (ret a2).
Proof. intros HR w1 w2 Hsim. by split. Qed.

Lemma lockstep_lift {A} c1 c2 (r : result A) :
  lockstep eq c1 c2 (lift r) (lift r).
Proof. intros w1 w2 Hsim. split; [|done]. by destruct r. Qed.

Lemma lockstep_emit c1 c2 g : lockstep eq c1 c2 (emit c1 g) (emit c2 g).
Proof.
  intros w1 w2 (Hg & H1 & H2 & Hgates). split; [done|].
  rewrite !emit_emit_all. simpl. unfold sim.
  rewrite !heap_length_emit_all, !gates_of_emit_all_valid by done.
  by rewrite Hgates.
Qed.

Lemma lockstep_draw {A} c1 c2 (f : Z -> A * Z) :
  lockstep eq c1 c2 (draw f) (draw f).
Proof.
  intros w1 w2 (Hg & H1 & H2 & Hgates). unfold draw. rewrite Hg.
  destruct (f (np_random w2)) as [a g]. by split.
Qed.

Lemma lockstep_bind {A B} (RA : A -> A -> Prop) (RB : B -> B -> Prop)
    c1 c2 (m1 m2 : Py A) (k1 k2 : A -> Py B) :
  lockstep RA c1 c2 m1 m2 ->
  (forall a1 a2, RA a1 a2 -> lockstep RB c1 c2 (k1 a1) (k2 a2)) ->
  lockstep RB c1 c2 (bind m1 k1) (bind m2 k2).
Proof.
  intros Hm Hk w1 w2 Hsim. destruct (Hm w1 w2 Hsim) as [Hout Hsim'].
  unfold bind. destruct (m1 w1) as [[a1|e1] w1'], (m2 w2) as [[a2|e2] w2'];
    simpl in *; try done.
  by apply Hk.
Qed.

Lemma lockstep_bind_eq {A B} (RB : B -> B -> Prop)
    c1 c2 (m1 m2 : Py A) (k1 k2 : A -> Py B) :
  lockstep eq c1 c2 m1 m2 ->
  (forall a, lockstep RB c1 c2 (k1 a) (k2 a)) ->
  lockstep RB c1 c2 (bind m1 k1) (bind m2 k2).
Proof.
  intros Hm Hk. apply (lockstep_bind eq); [done|]. by intros a ? <-.
Qed.

Lemma lockstep_for_each {A} c1 c2 (l : list A) (b1 b2 : A -> Py unit) :
  (forall x, lockstep eq c1 c2 (b1 x) (b2 x)) ->
  lockstep eq c1 c2 (for_each l b1) (for_each l b2).
Proof.
  intros Hb. induction l as [|x l IH]; simpl.
  - by apply lockstep_ret.
  - by apply lockstep_bind_eq.
Qed.

Lemma lockstep_gates_of c1 c2 (f : list instruction -> Gate) :
  lockstep eq c1 c2 (fun w => (Ok (f (gates_of w c1)), w))
                    (fun w => (Ok (f (gates_of w c2)), w)).
Proof.
  intros w1 w2 Hsim. split; [|done]. simpl.
  destruct Hsim as (_ & _ & _ & ->). done.
Qed.

#[local] Hint Resolve lockstep_lift lockstep_emit lockstep_draw
  lockstep_for_each lockstep_gates_of : emits.

Lemma lockstep_permute_loop c1 c2 n permutation (fuel : nat) :
  forall i initial_position,
    lockstep eq c1 c2
      (SimonProblem.permute_loop fuel c1 n permutation i initial_position)
      (SimonProblem.permute_loop fuel c2 n permutation i initial_position).
Proof.
  induction fuel as [|fuel IH]; intros i ip; simpl.
  - by apply lockstep_ret.
  - destruct (i <? n); [|by apply lockstep_ret].
    apply lockstep_bind_eq; [auto with emits|]. intros a.
    apply lockstep_bind_eq; [auto with emits|]. intros b.
    destruct (negb (a =? b)); [|apply IH].
    apply lockstep_bind_eq; [auto with emits|]. intros a'.
    apply lockstep_bind_eq; [auto with emits|]. intros k.
    apply lockstep_bind_eq; [auto with emits|]. intros _.
    apply lockstep_bind_eq; [auto with emits|]. intros at_k.
    apply lockstep_bind_eq; [auto with emits|]. intros at_i.
    apply lockstep_bind_eq; [auto with emits|]. intros ip1.
    apply lockstep_bind_eq; [auto with emits|]. intros ip2.
    apply IH.
Qed.

Lemma lockstep_place_x_gates c1 c2 binary_string :
  lockstep eq c1 c2 (DeutschJozsa.place_x_gates c1 binary_string)
                    (DeutschJozsa.place_x_gates c2 binary_string).
Proof.
  unfold DeutschJozsa.place_x_gates. apply lockstep_for_each. intros qubit.
  apply lockstep_bind_eq; [auto with emits|]. intros ch.
  destruct (bool_decide (ch = "1"%char)); [auto with emits|].
  by apply lockstep_ret.
Qed.

(** A computation that starts by creating its circuit: from equal generator
    states, two runs that are in lockstep on their fresh circuits have the
    same outcome. *)
Lemma lockstep_new_circuit {A} (R : A -> A -> Prop) nq nc (k : ref -> Py A) :
  (forall c1 c2, lockstep R c1 c2 (k c1) (k c2)) ->
  forall w1 w2, np_random w1 = np_random w2 ->
    same_outcome R (bind (new_circuit nq nc) k w1).1
                   (bind (new_circuit nq nc) k w2).1
    /\ np_random (bind (new_circuit nq nc) k w1).2
       = np_random (bind (new_circuit nq nc) k w2).2.
Proof.
  intros Hk w1 w2 Hg. unfold bind, new_circuit.
  match goal with
  | |- context [k ?c1 ?w1'] =>
      match goal with
      | |- context [k (length (heap w2)) ?w2'] =>
          destruct (Hk (length (heap w1)) (length (heap w2)) w1' w2')
            as [Hout (Hg' & _)]
      end
  end.
  - unfold sim; simpl. rewrite !length_app; simpl.
    split; [done|]. split; [lia|]. split; [lia|].
    unfold gates_of; simpl.
    by rewrite !lookup_app_r, !Nat.sub_diag by lia.
  - by split.
Qed.

Section OracleRuns.
Variable randint : Z -> Z -> Z -> result Z * Z.
Variable np_permutation : Z -> Z -> list Z * Z.
Variable np_random_sample : Z -> QArith_base.Q * Z.

Lemma DJ_oracle_same_draws (self : instance) (w1 w2 : world) :
  np_random w1 = np_random w2 ->
  same_outcome eq (DeutschJozsa.oracle randint self w1).1
                  (DeutschJozsa.oracle randint self w2).1
  /\ np_random (DeutschJozsa.oracle randint self w1).2
     = np_random (DeutschJozsa.oracle randint self w2).2.
Proof.
  intros Hg. unfold DeutschJozsa.oracle, attr_int. rewrite !bind_lift.
  destruct (rbind (getattr self "num_bits") as_int) as [num_bits|e];
    [|by split].
  apply lockstep_new_circuit; [|done]. intros c1 c2.
  apply lockstep_bind_eq; [unfold attr_str; auto with emits|]. intros type.
  apply lockstep_bind_eq.
  { destruct (bool_decide (type = "constant")); [|by apply lockstep_ret].
    apply lockstep_bind_eq.
    - apply lockstep_bind_eq; auto with emits.
    - intros output. destruct (output =? 1); [auto with emits|].
      by apply lockstep_ret. }
  intros _.
  apply lockstep_bind_eq; [unfold attr_str; auto with emits|]. intros type'.
  apply lockstep_bind_eq; [|intros _; apply lockstep_gates_of].
  destruct (bool_decide (type' = "balanced")); [|by apply lockstep_ret].
  apply lockstep_bind_eq; [apply lockstep_bind_eq; auto with emits|].
  intros b.
  apply lockstep_bind_eq; [auto with emits|]. intros binary_string.
  apply lockstep_bind_eq; [apply lockstep_place_x_gates|]. intros _.
  apply lockstep_bind_eq; [auto with emits|]. intros _.
  apply lockstep_place_x_gates.
Qed.

Lemma Simon_oracle_lockstep (fuel : nat) (self : instance) (c1 c2 : ref) :
  lockstep (fun r1 r2 => (r1 = None /\ r2 = None)
                         \/ (r1 = Some c1 /\ r2 = Some c2)) c1 c2
    (SimonProblem.oracle np_permutation np_random_sample fuel self c1)
    (SimonProblem.oracle np_permutation np_random_sample fuel self c2).
Proof.
  unfold SimonProblem.oracle.
  apply lockstep_bind_eq; [unfold attr_int; auto with emits|]. intros n.
  apply lockstep_bind_eq; [auto with emits|]. intros _.
  apply lockstep_bind_eq; [unfold attr_str; auto with emits|]. intros b.
  apply lockstep_bind_eq.
  { apply lockstep_for_each. intros [idx char].
    destruct (bool_decide (char = "1"%char) && negb (rfind b "1" =? -1));
      [auto with emits|by apply lockstep_ret]. }
  intros _.
  apply lockstep_bind_eq; [auto with emits|]. intros permutation.
  apply lockstep_bind_eq; [apply lockstep_permute_loop|]. intros [r|].
  - apply lockstep_bind_eq; [|intros _; apply lockstep_ret; by right].
    apply lockstep_for_each. intros i.
    apply lockstep_bind_eq; [auto with emits|]. intros x.
    destruct (SimonProblem.gt_half x); [auto with emits|].
    by apply lockstep_ret.
  - apply lockstep_ret. by left.
Qed.
End OracleRuns.

Example DJ_oracle_balanced :
  exists self,
    DeutschJozsa.init "balanced" 2 = Ok self
    /\ (DeutschJozsa.oracle counter_randint self (mkWorld [] 0)).1
       = Ok (mkGate "Oracle" 3 [X 1; CX 0 2; CX 1 2; X 1]).
Proof. eexists. split; [reflexivity|]. vm_compute. reflexivity. Qed.

Example Simon_oracle_11 :
  exists self,
    SimonProblem.init "11" = Ok self
    /\ gates_of (SimonProblem.oracle counter_permutation counter_random_sample
                   5 self 0%nat (mkWorld [mkCircuit 4 2 []] 1)).2 0%nat
       = [CX 0 2; CX 1 3; CX 1 2; CX 1 3; SWAP 2 3; X 3].
Proof. eexists. split; [reflexivity|]. vm_compute. reflexivity. Qed.

(** C4, as the code has it: the oracles read and advance numpy's global
    random generator, and that is the only state they depend on.  Two runs
    of [DeutschJozsa.oracle] on the same instance that start from the same
    generator state return the same gate; two runs of
    [SimonProblem.oracle] on the same instance, on circuits holding the same
    gates and from the same generator state, leave the same gate sequences
    in their circuits. *)
Theorem C4_oracles_same_draws
    (randint : Z -> Z -> Z -> result Z * Z)
    (np_permutation : Z -> Z -> list Z * Z)
    (np_random_sample : Z -> QArith_base.Q * Z)
    (dj simon : instance) (fuel : nat) (c1 c2 : ref) (w1 w2 : world) :
  np_random w1 = np_random w2 ->
  same_outcome eq (DeutschJozsa.oracle randint dj w1).1
                  (DeutschJozsa.oracle randint dj w2).1
  /\ ((c1 < length (heap w1))%nat -> (c2 < length (heap w2))%nat ->
      gates_of w1 c1 = gates_of w2 c2 ->
      let o1 := SimonProblem.oracle np_permutation np_random_sample
                  fuel simon c1 w1 in
      let o2 := SimonProblem.oracle np_permutation np_random_sample
                  fuel simon c2 w2 in
      gates_of o1.2 c1 = gates_of o2.2 c2
      /\ same_outcome (fun r1 r2 => (r1 = None /\ r2 = None)
                                    \/ (r1 = Some c1 /\ r2 = Some c2))
                      o1.1 o2.1).
Proof.
  intros Hg. split.
  - by apply DJ_oracle_same_draws.
  - intros H1 H2 Hgates o1 o2.
    destruct (Simon_oracle_lockstep np_permutation np_random_sample
                fuel simon c1 c2 w1 w2) as [Hout Hsim]; [done|].
    split; [|done]. by destruct Hsim as (_ & _ & _ & ?).
Qed.

Lemma C4_oracles_same_draws_witness :
  same_outcome eq
    (DeutschJozsa.oracle counter_randint
       (<["num_bits" := VInt 2]> (<["type" := VStr "balanced"]> ∅))
       (mkWorld [mkCircuit 4 2 []] 5)).1
    (DeutschJozsa.oracle counter_randint
       (<["num_bits" := VInt 2]> (<["type" := VStr "balanced"]> ∅))
       (mkWorld [mkCircuit 1 0 [H 0]; mkCircuit 4 2 []] 5)).1
  /\ gates_of
       (SimonProblem.oracle counter_permutation counter_random_sample 5
          (<["n" := VInt 2]> (<["b" := VStr "11"]> ∅)) 0%nat
          (mkWorld [mkCircuit 4 2 []] 5)).2 0%nat
     = gates_of
         (SimonProblem.oracle counter_permutation counter_random_sample 5
            (<["n" := VInt 2]> (<["b" := VStr "11"]> ∅)) 1%nat
            (mkWorld [mkCircuit 1 0 [H 0]; mkCircuit 4 2 []] 5)).2 1%nat.
Proof.
  destruct (C4_oracles_same_draws counter_randint counter_permutation
              counter_random_sample
              (<["num_bits" := VInt 2]> (<["type" := VStr "balanced"]> ∅))
              (<["n" := VInt 2]> (<["b" := VStr "11"]> ∅))
              5 0%nat 1%nat
              (mkWorld [mkCircuit 4 2 []] 5)
              (mkWorld [mkCircuit 1 0 [H 0]; mkCircuit 4 2 []] 5)
              eq_refl) as [Hdj Hsimon].
  split; [exact Hdj|].
  apply Hsimon; [simpl; lia | simpl; lia | reflexivity].
Defined.

(** C4 as stated fails: on the same instance, [DeutschJozsa.oracle] returns
    an empty gate from one generator state and a gate with an X from
    another. *)
Lemma C4_counterexample_draws :
  exists self,
    DeutschJozsa.init "constant" 1 = Ok self
    /\ (DeutschJozsa.oracle counter_randint self (mkWorld [] 0)).1
       = Ok (mkGate "Oracle" 2 [])
    /\ (DeutschJozsa.oracle counter_randint self (mkWorld [] 1)).1
       = Ok (mkGate "Oracle" 2 [X 1])
    /\ ~ (forall randint self' w1 w2,
            same_outcome eq (DeutschJozsa.oracle randint self' w1).1
                            (DeutschJozsa.oracle randint self' w2).1).
Proof.
  eexists. split; [reflexivity|].
  split; [vm_compute; reflexivity|]. split; [vm_compute; reflexivity|].
  intros Hall.
  specialize (Hall counter_randint
                (<["num_bits" := VInt 1]> (<["type" := VStr "constant"]> ∅))
                (mkWorld [] 0) (mkWorld [] 1)).
  vm_compute in Hall. discriminate Hall.
Qed.

(** * Further properties of the code *)

Lemma for_each_app {A} (l1 l2 : list A) (body : A -> Py unit) w :
  for_each (l1 ++ l2) body w = (for_each l1 body ;;; for_each l2 body) w.
Proof.
  revert w. unfold bind. induction l1 as [|x l1 IH]; intros w; simpl.
  - reflexivity.
  - unfold bind. destruct (body x w) as [[[]|e] w']; [|reflexivity].
    apply IH.
Qed.

Lemma for_each_cons {A} (x : A) (l : list A) (body : A -> Py unit) :
  for_each (x :: l) body = (body x ;;; for_each l body).
Proof. reflexivity. Qed.

Lemma range_split (k n : Z) :
  0 <= k <= n -> range n = range k ++ seqZ k (n - k).
Proof.
  intros Hk. unfold range. replace n with (k + (n - k)) at 1 by lia.
  by rewrite seqZ_app by lia.
Qed.

(** The circuit object found at [c]. *)
Lemma heap_fresh_emit_all nq nc h g gs :
  heap (emit_all (length h) gs (mkWorld (h ++ [mkCircuit nq nc []]) g))
    !! length h = Some (mkCircuit nq nc gs).
Proof.
  unfold emit_all; simpl. rewrite list_lookup_alter_eq.
  by rewrite lookup_app_r, Nat.sub_diag by lia.
Qed.

(** ** Bernstein-Vazirani on any string *)

(** The oracle loop over the first [k] qubits, for [k] within the string. *)
Lemma BV_oracle_loop_prefix (c : ref) (n k : Z) (s : string) w :
  k <= len s ->
  for_each (range k) (fun qubit =>
    ch <~ lift (getitem (reverse (chars s)) qubit) ;;
    if bool_decide (ch = "0"%char) then emit c (Ig qubit)
    else emit c (CX qubit n)) w
  = (Ok tt, emit_all c (BV_layer_from_end n k s) w).
Proof.
  intros Hk.
  rewrite (for_each_emit _ _
    (fun i => [if bool_decide (chars s !! Z.to_nat (len s - 1 - i)
                               = Some "0"%char)
               then Ig i else CX i n]) c).
  { do 2 f_equal. unfold BV_layer_from_end.
    induction (range k); simpl; by f_equal. }
  intros i w0 Hi. apply elem_of_range in Hi. unfold len in *.
  assert (Hrev : reverse (chars s) !! Z.to_nat i
                 = chars s !! Z.to_nat (Z.of_nat (length (chars s)) - 1 - i)).
  { rewrite reverse_lookup by lia. f_equal. lia. }
  destruct (chars s !! Z.to_nat (Z.of_nat (length (chars s)) - 1 - i))
    as [ch|] eqn:Hch.
  - erewrite bind_Ok
      by (unfold lift; erewrite getitem_lookup by (lia || exact Hrev); done).
    destruct (decide (ch = "0"%char)) as [->|Hne].
    + reflexivity.
    + rewrite bool_decide_eq_false_2 by done.
      rewrite bool_decide_eq_false_2 by congruence. reflexivity.
  - apply lookup_ge_None_1 in Hch. lia.
Qed.

Lemma getitem_out_of_range {A} (l : list A) (i : Z) :
  Z.of_nat (length l) <= i -> getitem l i = Raise IndexError.
Proof.
  intros Hi. unfold getitem. destruct (i <? 0) eqn:E; [lia|]. rewrite E.
  by rewrite lookup_ge_None_2 by lia.
Qed.

(** X1: when [bitstring] has fewer than [num_qubits] characters,
    [BernsteinVazirani.algorithm] raises IndexError, in the oracle loop at
    the first qubit that has no character. *)
Theorem X1_BV_short_bitstring (n : Z) (s : string) (draw : bool) (w : world) :
  len s < n ->
  exists self w',
    BernsteinVazirani.init n s = Ok self
    /\ BernsteinVazirani.algorithm self draw w = (Raise IndexError, w')
    /\ gates_of w' (length (heap w))
       = [H n; Zg n] ++ map H (range n) ++ [Barrier]
         ++ BV_layer_from_end n (len s) s.
Proof.
  intros Hlen. assert (Hs : 0 <= len s) by (unfold len; lia).
  eexists. eexists. split; [reflexivity|].
  unfold BernsteinVazirani.algorithm.
  py_attr. py_new. py_emit. py_emit. py_loop. py_emit. py_attr.
  assert (Horacle : forall w0,
    BernsteinVazirani.inner_product_oracle (length (heap w)) n s w0
    = (Raise IndexError,
       emit_all (length (heap w)) (BV_layer_from_end n (len s) s) w0)).
  { intros w0. unfold BernsteinVazirani.inner_product_oracle.
    rewrite (range_split (len s) n) by lia. rewrite for_each_app.
    erewrite bind_Ok by (apply BV_oracle_loop_prefix; lia).
    rewrite seqZ_cons by lia. simpl.
    apply bind_Raise. apply bind_Raise. unfold lift.
    rewrite getitem_out_of_range; [done|].
    rewrite length_reverse. unfold len. lia. }
  erewrite bind_Raise by apply Horacle.
  split; [reflexivity|].
  rewrite !emit_all_app, gates_of_fresh. reflexivity.
Qed.

Lemma X1_BV_short_bitstring_witness :
  exists self w',
    BernsteinVazirani.init 3 "10" = Ok self
    /\ BernsteinVazirani.algorithm self false (mkWorld [] 0)
       = (Raise IndexError, w')
    /\ gates_of w' 0%nat
       = [H 3; Zg 3] ++ map H (range 3) ++ [Barrier]
         ++ BV_layer_from_end 3 (len "10") "10".
Proof.
  apply (X1_BV_short_bitstring 3 "10" false (mkWorld [] 0)). reflexivity.
Defined.

Lemma BV_algorithm_any_string (n : Z) (s : string) (draw : bool) (w : world) :
  0 <= n <= len s ->
  exists self w',
    BernsteinVazirani.init n s = Ok self
    /\ BernsteinVazirani.algorithm self draw w = (Ok (length (heap w)), w')
    /\ heap w' !! length (heap w)
       = Some (mkCircuit (n + 1) n
                 ([H n; Zg n] ++ map H (range n) ++ [Barrier]
                  ++ BV_layer_from_end n n s ++ [Barrier]
                  ++ map H (range n)
                  ++ map (fun q => Measure q q) (range n))).
Proof.
  intros [_ Hlen]. eexists. eexists. split; [reflexivity|].
  unfold BernsteinVazirani.algorithm.
  py_attr. py_new. py_emit. py_emit. py_loop. py_emit. py_attr.
  erewrite bind_Ok
    by (unfold BernsteinVazirani.inner_product_oracle;
        by apply BV_oracle_loop_prefix).
  py_emit. py_loop. py_loop. unfold ret.
  rewrite !emit_all_app. split; [reflexivity|].
  apply heap_fresh_emit_all.
Qed.

(** X2: when [num_qubits >= 0] and [bitstring] has at least [num_qubits]
    characters, [BernsteinVazirani.algorithm] returns a fresh circuit of
    [num_qubits + 1] qubits and [num_qubits] classical bits; its oracle
    layer reads only the last [num_qubits] characters, and every character
    other than '0' gives a CNOT. *)
Theorem X2_BV_long_bitstring (n : Z) (s : string) (draw : bool) (w : world) :
  0 <= n <= len s ->
  exists self w',
    BernsteinVazirani.init n s = Ok self
    /\ BernsteinVazirani.algorithm self draw w = (Ok (length (heap w)), w')
    /\ heap w' !! length (heap w)
       = Some (mkCircuit (n + 1) n
                 ([H n; Zg n] ++ map H (range n) ++ [Barrier]
                  ++ BV_layer_from_end n n s ++ [Barrier]
                  ++ map H (range n)
                  ++ map (fun q => Measure q q) (range n))).
Proof. apply BV_algorithm_any_string. Qed.

Lemma X2_BV_long_bitstring_witness :
  exists self w',
    BernsteinVazirani.init 2 "1x0" = Ok self
    /\ BernsteinVazirani.algorithm self false (mkWorld [] 0) = (Ok 0%nat, w')
    /\ heap w' !! 0%nat
       = Some (mkCircuit (2 + 1) 2
                 ([H 2; Zg 2] ++ map H (range 2) ++ [Barrier]
                  ++ BV_layer_from_end 2 2 "1x0" ++ [Barrier]
                  ++ map H (range 2)
                  ++ map (fun q => Measure q q) (range 2))).
Proof.
  apply (X2_BV_long_bitstring 2 "1x0" false (mkWorld [] 0)).
  vm_compute. split; discriminate.
Defined.

(** Gate lists made by mapping over a range. *)
Lemma Forall_map_range (P : instruction -> Prop) (f : Z -> instruction)
    (n : Z) :
  (forall i, 0 <= i < n -> P (f i)) -> Forall P (map f (range n)).
Proof.
  intros Hf. apply Forall_fmap, Forall_forall. intros i Hi.
  apply Hf. by apply elem_of_range.
Qed.

(** Splits a goal [Forall (in_circuit nq nc) gs] along the shape of [gs]
    and closes the arithmetic of the single instructions. *)
Ltac in_circuit_list :=
  repeat first
    [ apply List.Forall_nil
    | apply List.Forall_cons; [simpl; try lia|]
    | apply Forall_app_2
    | (apply Forall_map_range; intros ? ?; simpl; try lia) ].

(** X3: for [0 <= num_qubits <= len(bitstring)], every instruction of the
    circuit [BernsteinVazirani.algorithm] returns lies inside that circuit:
    qubit indices below [num_qubits + 1], classical bits below
    [num_qubits], and the control of every CNOT differs from its target. *)
Theorem X3_BV_instructions_in_circuit (n : Z) (s : string) (draw : bool)
    (w : world) :
  0 <= n <= len s ->
  exists self w' circ,
    BernsteinVazirani.init n s = Ok self
    /\ BernsteinVazirani.algorithm self draw w = (Ok (length (heap w)), w')
    /\ heap w' !! length (heap w) = Some circ
    /\ Forall (in_circuit (num_qubits circ) (num_clbits circ)) (data circ).
Proof.
  intros Hn.
  destruct (BV_algorithm_any_string n s draw w ltac:(lia))
    as (self & w' & Hi & Ha & Hc).
  exists self, w'. eexists. split; [done|]. split; [done|].
  split; [exact Hc|]. cbn [num_qubits num_clbits data].
  unfold BV_layer_from_end. in_circuit_list.
  case_bool_decide; simpl; lia.
Qed.

Lemma X3_BV_instructions_in_circuit_witness :
  exists self w' circ,
    BernsteinVazirani.init 2 "110" = Ok self
    /\ BernsteinVazirani.algorithm self false (mkWorld [] 0) = (Ok 0%nat, w')
    /\ heap w' !! 0%nat = Some circ
    /\ Forall (in_circuit (num_qubits circ) (num_clbits circ)) (data circ).
Proof.
  apply (X3_BV_instructions_in_circuit 2 "110" false (mkWorld [] 0)).
  vm_compute. split; discriminate.
Defined.

(** ** Quantum Fourier Transform: size and bounds of the circuit *)

Lemma Forall_concat_map {A} (P : instruction -> Prop)
    (f : A -> list instruction) (l : list A) :
  (forall x, x ∈ l -> Forall P (f x)) -> Forall P (concat (map f l)).
Proof.
  induction l as [|x l IH]; intros Hf; simpl; [constructor|].
  apply Forall_app_2; [apply Hf; left|].
  apply IH. intros y Hy. apply Hf. by right.
Qed.

Lemma below_half (n q : Z) : 0 <= q < n / 2 -> 2 * q + 1 < n.
Proof.
  intros Hq. assert (Hn : 0 < n).
  { destruct (Z_lt_le_dec 0 n) as [|Hle]; [done|].
    pose proof (Z.div_le_upper_bound n 2 0 ltac:(lia) ltac:(lia)). lia. }
  pose proof (Z.div_mod n 2 ltac:(lia)).
  pose proof (Z.mod_pos_bound n 2 ltac:(lia)). lia.
Qed.

Lemma QFT_circuit_in_circuit (n : Z) :
  Forall (in_circuit n 0) (QFT_circuit n).
Proof.
  unfold QFT_circuit. apply Forall_app_2.
  - unfold QFT_rotations. apply Forall_concat_map. intros k Hk.
    apply elem_of_reverse, elem_of_range in Hk. unfold QFT_block.
    in_circuit_list.
  - unfold QFT_swaps. in_circuit_list.
    match goal with Hq : 0 <= ?q < n / 2 |- _ =>
      pose proof (below_half n q Hq) end.
    lia.
Qed.

(** A fresh instance and one call of [algorithm]: the instance's circuit
    object holds the sequence [QFT_circuit n]. *)
Lemma QFT_fresh_algorithm (n : Z) (draw : bool) (w : world) (depth : nat) :
  0 <= n <= 1024 -> (Z.to_nat n < depth)%nat ->
  exists self w1 w2,
    QuantumFourierTransform.init n w = (Ok self, w1)
    /\ QuantumFourierTransform.algorithm depth self draw w1
       = (Ok (length (heap w)), w2)
    /\ heap w2 !! length (heap w) = Some (mkCircuit n 0 (QFT_circuit n)).
Proof.
  intros Hn Hdepth. do 3 eexists. split; [apply QFT_init_eq|]. split.
  - apply QFT_algorithm_appends;
      [ by rewrite lookup_insert_eq
      | rewrite lookup_insert_ne by discriminate; by rewrite lookup_insert_eq
      | unfold float_max_exp; lia
      | done ].
  - apply heap_fresh_emit_all.
Qed.

(** Whatever number [depth] of nested calls is admitted, the gate calls
    [rotations] has made when it ends, by returning or by raising, lie
    inside a circuit of [n] qubits. *)
Lemma QFT_rotations_any (depth : nat) (c : ref) (n : Z) w :
  0 <= n ->
  exists r gs,
    QuantumFourierTransform.rotations depth c n w = (r, emit_all c gs w)
    /\ Forall (in_circuit n 0) gs
    /\ (r = Ok c -> gs = QFT_rotations n).
Proof.
  intros Hn.
  assert (Hblocks : forall ks : list Z, (forall k, k ∈ ks -> 0 <= k < n) ->
            Forall (in_circuit n 0) (concat (map QFT_block ks))).
  { intros ks Hks. apply Forall_concat_map. intros k Hk.
    apply Hks in Hk. unfold QFT_block. in_circuit_list. }
  destruct (decide (n <= float_max_exp + 1)) as [Hle|Hgt].
  - destruct (decide (Z.to_nat n < depth)%nat) as [Hd|Hd].
    + exists (Ok c), (QFT_rotations n).
      split; [apply QFT_rotations_ok; [lia|done]|]. split; [|done].
      apply Hblocks. intros k Hk. by apply elem_of_reverse, elem_of_range in Hk.
    + eexists _, _.
      split; [apply QFT_rotations_recursion_limit; lia|].
      split; [|discriminate].
      apply Hblocks. intros k Hk.
      apply elem_of_take in Hk as (i & Hk & _).
      apply list_elem_of_lookup_2, elem_of_reverse, elem_of_range in Hk.
      done.
  - destruct depth as [|depth].
    + exists (Raise RecursionError), [].
      split; [by rewrite emit_all_nil|]. split; [constructor|discriminate].
    + exists (Raise OverflowError), [H (n - 1)].
      split; [apply QFT_rotations_overflow; lia|].
      split; [|discriminate].
      unfold float_max_exp in Hgt. in_circuit_list.
Qed.

(** X4: for every [num_qubits >= 0], every instruction that
    [QuantumFourierTransform.algorithm] has put on a fresh instance's
    circuit when it ends, by returning or by raising, lies inside that
    circuit of [num_qubits] qubits: Hadamard gates on qubits below
    [num_qubits], controlled phases and swaps on two distinct such qubits.
    Up to 1024 qubits it returns the circuit whenever the interpreter's
    recursion limit admits the [num_qubits + 1] nested calls of
    [rotations]. *)
Theorem X4_QFT_instructions_in_circuit (n : Z) (draw : bool) (w : world)
    (depth : nat) :
  0 <= n ->
  exists self w1 r w2 circ,
    QuantumFourierTransform.init n w = (Ok self, w1)
    /\ QuantumFourierTransform.algorithm depth self draw w1 = (r, w2)
    /\ heap w2 !! length (heap w) = Some circ
    /\ num_qubits circ = n
    /\ Forall (in_circuit (num_qubits circ) (num_clbits circ)) (data circ)
    /\ (n <= 1024 -> (Z.to_nat n < depth)%nat -> r = Ok (length (heap w))).
Proof.
  intros Hn.
  destruct (decide (n <= 1024 /\ (Z.to_nat n < depth)%nat)) as [[Hle Hd]|Hno].
  - destruct (QFT_fresh_algorithm n draw w depth ltac:(lia) Hd)
      as (self & w1 & w2 & Hi & Ha & Hc).
    exists self, w1, (Ok (length (heap w))), w2. eexists.
    split; [done|]. split; [done|]. split; [exact Hc|]. split; [done|].
    split; [apply QFT_circuit_in_circuit|done].
  - destruct (QFT_rotations_any depth (length (heap w)) n
                (mkWorld (heap w ++ [mkCircuit n 0 []]) (np_random w)) Hn)
      as (r & gs & Hrot & Hgs & Hret).
    destruct r as [c|e].
    + exfalso. apply Hno.
      destruct (decide (n <= float_max_exp + 1)) as [Hle|Hgt].
      * destruct (decide (Z.to_nat n < depth)%nat) as [Hd|Hd].
        { unfold float_max_exp in Hle. lia. }
        rewrite QFT_rotations_recursion_limit in Hrot by lia.
        discriminate Hrot.
      * destruct depth as [|depth]; [discriminate Hrot|].
        rewrite QFT_rotations_overflow in Hrot by lia. discriminate Hrot.
    + do 2 eexists. exists (Raise e). do 2 eexists.
      split; [apply QFT_init_eq|]. split.
      { unfold QuantumFourierTransform.algorithm.
        erewrite bind_Ok by (attr_lookup; reflexivity).
        erewrite bind_Ok by (attr_lookup; reflexivity).
        apply bind_Raise. exact Hrot. }
      split; [apply heap_fresh_emit_all|]. split; [done|].
      split; [exact Hgs|]. intros Hle Hd. exfalso. apply Hno. done.
Qed.

Lemma X4_QFT_instructions_in_circuit_witness :
  exists self w1 r w2 circ,
    QuantumFourierTransform.init 3 (mkWorld [] 0) = (Ok self, w1)
    /\ QuantumFourierTransform.algorithm 4 self false w1 = (r, w2)
    /\ heap w2 !! length (heap (mkWorld [] 0)) = Some circ
    /\ num_qubits circ = 3
    /\ Forall (in_circuit (num_qubits circ) (num_clbits circ)) (data circ)
    /\ (3 <= 1024 -> (Z.to_nat 3 < 4)%nat
        -> r = Ok (length (heap (mkWorld [] 0)))).
Proof.
  apply (X4_QFT_instructions_in_circuit 3 false (mkWorld [] 0) 4). lia.
Defined.

Lemma QFT_rotations_length_twice (k : nat) :
  Z.of_nat (length (QFT_rotations (Z.of_nat k))) * 2
  = Z.of_nat k * (Z.of_nat k + 1).
Proof.
  induction k as [|k IH]; [reflexivity|].
  rewrite QFT_rotations_step by lia.
  replace (Z.of_nat (S k) - 1) with (Z.of_nat k) by lia.
  rewrite length_app, Nat2Z.inj_add. unfold QFT_block. simpl length.
  rewrite length_map. unfold range. rewrite length_seqZ, Nat2Z.id. lia.
Qed.

Lemma QFT_rotations_length (k : nat) :
  Z.of_nat (length (QFT_rotations (Z.of_nat k)))
  = Z.of_nat k * (Z.of_nat k + 1) / 2.
Proof.
  rewrite <- QFT_rotations_length_twice. by rewrite Z.div_mul by lia.
Qed.

Lemma filter_is_H_map (f : Z -> instruction) (l : list Z) :
  (forall q, is_H (f q) = false) ->
  filter (fun g => is_H g) (map f l) = [].
Proof.
  intros Hf. induction l as [|q l IH]; [done|]. simpl.
  rewrite filter_cons_False; [done|]. rewrite Hf. by intros [].
Qed.

Lemma QFT_rotations_hadamards (k : nat) :
  length (filter (fun g => is_H g) (QFT_rotations (Z.of_nat k))) = k.
Proof.
  induction k as [|k IH]; [reflexivity|].
  rewrite QFT_rotations_step by lia.
  replace (Z.of_nat (S k) - 1) with (Z.of_nat k) by lia.
  rewrite filter_app, length_app, IH. unfold QFT_block.
  rewrite filter_cons_True by done. by rewrite filter_is_H_map.
Qed.

(** X5: on [n] qubits, [0 <= n <= 1024], and with the interpreter's
    recursion limit admitting the [n + 1] nested calls of [rotations], the
    circuit of [QuantumFourierTransform.algorithm] has [n(n+1)/2 + n//2]
    gates, of which exactly [n] are Hadamard gates. *)
Theorem X5_QFT_gate_count (n : Z) (draw : bool) (w : world) (depth : nat) :
  0 <= n <= 1024 -> (Z.to_nat n < depth)%nat ->
  exists self w1 w2 c,
    QuantumFourierTransform.init n w = (Ok self, w1)
    /\ QuantumFourierTransform.algorithm depth self draw w1 = (Ok c, w2)
    /\ Z.of_nat (length (gates_of w2 c)) = n * (n + 1) / 2 + n / 2
    /\ Z.of_nat (length (filter (fun g => is_H g) (gates_of w2 c))) = n.
Proof.
  intros Hn Hdepth.
  destruct (QFT_fresh_algorithm n draw w depth Hn Hdepth)
    as (self & w1 & w2 & Hi & Ha & Hc).
  exists self, w1, w2, (length (heap w)).
  split; [done|]. split; [done|].
  unfold gates_of. rewrite Hc. cbn [data]. unfold QFT_circuit. split.
  - rewrite length_app, Nat2Z.inj_add.
    rewrite <- (Z2Nat.id n) at 1 by lia. rewrite QFT_rotations_length.
    rewrite Z2Nat.id by lia. unfold QFT_swaps.
    rewrite length_map. unfold range. rewrite length_seqZ.
    rewrite Z2Nat.id; [lia|]. apply Z.div_pos; lia.
  - rewrite filter_app, length_app. unfold QFT_swaps.
    rewrite filter_is_H_map by done. simpl. rewrite Nat.add_0_r.
    rewrite <- (Z2Nat.id n) at 1 by lia. rewrite QFT_rotations_hadamards.
    lia.
Qed.

Lemma X5_QFT_gate_count_witness :
  exists self w1 w2 c,
    QuantumFourierTransform.init 3 (mkWorld [] 0) = (Ok self, w1)
    /\ QuantumFourierTransform.algorithm 4 self false w1 = (Ok c, w2)
    /\ Z.of_nat (length (gates_of w2 c)) = 3 * (3 + 1) / 2 + 3 / 2
    /\ Z.of_nat (length (filter (fun g => is_H g) (gates_of w2 c))) = 3.
Proof.
  apply (X5_QFT_gate_count 3 false (mkWorld [] 0) 4); simpl; lia.
Defined.

(** ** Quantum Phase Estimation: the inverse transform and the whole circuit *)

Lemma concat_map_singleton (f : Z -> instruction) (l : list Z) :
  concat (map (fun x => [f x]) l) = map f l.
Proof. induction l; simpl; by f_equal. Qed.

(** The rotation loop of [qft_inverse] for the target qubit [j]. *)
Lemma QPE_inverse_block_loop (c : ref) (j : Z) w :
  j <= float_max_exp ->
  (for_each (range j) (fun m =>
      theta <~ lift (neg_pi_over_2pow (j - m)) ;;
      emit c (CP theta m j)) ;;;
   emit c (H j)) w
  = (Ok tt, emit_all c (QPE_inverse_block j) w).
Proof.
  intros Hj.
  erewrite bind_Ok.
  2: { apply (for_each_emit _ _ (fun m => [CP (NegPiOver2Pow (j - m)) m j]) c).
       intros m w0 Hm. apply elem_of_range in Hm.
       unfold bind, lift, neg_pi_over_2pow.
       destruct (j - m <=? float_max_exp) eqn:E; [reflexivity|]. lia. }
  rewrite emit_emit_all, emit_all_app, concat_map_singleton. reflexivity.
Qed.

Lemma QPE_inverse_blocks_loop (c : ref) (k : Z) w :
  k <= float_max_exp + 1 ->
  for_each (range k) (fun j =>
    for_each (range j) (fun m =>
      theta <~ lift (neg_pi_over_2pow (j - m)) ;;
      emit c (CP theta m j)) ;;;
    emit c (H j)) w
  = (Ok tt, emit_all c (concat (map QPE_inverse_block (range k))) w).
Proof.
  intros Hk. apply for_each_emit. intros j w0 Hj.
  apply elem_of_range in Hj. apply QPE_inverse_block_loop. lia.
Qed.










Lemma controlled_U_gates_any (a : angle) (n : Z) (k : nat) :
  forall (m reps : Z),
    controlled_U_gates a n reps (seqZ m (Z.of_nat k))
    = concat (map (fun i => replicate (Z.to_nat (reps * 2 ^ (i - m)))
                                      (CP a i n))
                  (seqZ m (Z.of_nat k))).
Proof.
  induction k as [|k IH]; intros m reps; [reflexivity|].
  rewrite seqZ_cons by lia.
  replace (Z.pred (Z.of_nat (S k))) with (Z.of_nat k) by lia.
  simpl. rewrite Z.sub_diag, Z.mul_1_r. f_equal.
  rewrite IH. f_equal. apply map_ext_in. intros i Hi.
  apply list_elem_of_In, elem_of_seqZ in Hi.
  do 2 f_equal. replace (i - m) with (Z.succ (i - Z.succ m)) by lia.
  rewrite Z.pow_succ_r by lia. lia.
Qed.

Lemma QPE_controlled_U_from (self : instance) (a : angle) (n r : Z)
    (c : ref) w :
  self !! "angle" = Some (VAngle a) ->
  self !! "n_counting_qubits" = Some (VInt n) ->
  QuantumPhaseEstimation.controlled_U self c n r w
  = (Ok (r * 2 ^ Z.max 0 n), emit_all c (QPE_controlled_U_layer_from a n r) w).
Proof.
  intros Ha Hn. unfold QuantumPhaseEstimation.controlled_U.
  rewrite (QPE_controlled_U_fold self a n c Ha Hn). f_equal.
  - f_equal. unfold range. rewrite length_seqZ. do 2 f_equal. lia.
  - f_equal. unfold QPE_controlled_U_layer_from, range.
    destruct (decide (0 <= n)) as [Hn0|Hn0].
    + rewrite <- (Z2Nat.id n Hn0). rewrite controlled_U_gates_any. f_equal.
      apply map_ext. intros i. by rewrite Z.sub_0_r.
    + by rewrite seqZ_nil by lia.
Qed.

(** X9: entered with [repetitions = r], the controlled-U loop of
    [QuantumPhaseEstimation.algorithm] applies the controlled phase from
    counting qubit [i] exactly [r * 2^i] times, leaves [repetitions] at
    [r * 2^n], and applies no controlled phase at all when [r <= 0]. *)
Theorem X9_QPE_repetitions (n r : Z) (theta : QArith_base.Q) (c : ref)
    (w : world) :
  let a := TwoPiTimes theta in
  exists self,
    QuantumPhaseEstimation.init n theta = Ok self
    /\ QuantumPhaseEstimation.controlled_U self c n r w
       = (Ok (r * 2 ^ Z.max 0 n),
          emit_all c (QPE_controlled_U_layer_from a n r) w)
    /\ (forall i, 0 <= i < n ->
          occurrences (CP a i n) (QPE_controlled_U_layer_from a n r)
          = Z.to_nat (r * 2 ^ i))
    /\ (r <= 0 -> QPE_controlled_U_layer_from a n r = []).
Proof.
  intros a. eexists. split; [reflexivity|]. split; [|split].
  - apply QPE_controlled_U_from.
    + by rewrite lookup_insert_eq.
    + rewrite lookup_insert_ne by discriminate. by rewrite lookup_insert_eq.
  - intros i Hi. unfold QPE_controlled_U_layer_from.
    rewrite (occurrences_layer a n i (fun j => Z.to_nat (r * 2 ^ j)))
      by apply NoDup_seqZ.
    rewrite decide_True; [done|]. by apply elem_of_range.
  - intros Hr. unfold QPE_controlled_U_layer_from.
    assert (Hall : forall l : list Z, Forall (fun i => 0 <= i) l ->
              concat (map (fun i => replicate (Z.to_nat (r * 2 ^ i))
                                              (CP a i n)) l) = []).
    { induction 1 as [|i l Hi _ IH]; [done|]. simpl. rewrite IH.
      replace (Z.to_nat (r * 2 ^ i)) with 0%nat; [done|].
      pose proof (Z.pow_nonneg 2 i ltac:(lia)). nia. }
    apply Hall. apply Forall_forall. intros i Hi.
    apply elem_of_range in Hi. lia.
Qed.

Lemma X9_QPE_repetitions_witness :
  occurrences (CP (TwoPiTimes (QArith_base.Qmake 1 4)) 1 2)
    (QPE_controlled_U_layer_from (TwoPiTimes (QArith_base.Qmake 1 4)) 2 3)
  = Z.to_nat (3 * 2 ^ 1)
  /\ QPE_controlled_U_layer_from (TwoPiTimes (QArith_base.Qmake 1 4)) 2 (-1)
     = [].
Proof.
  split.
  - destruct (X9_QPE_repetitions 2 3 (QArith_base.Qmake 1 4) 0%nat
                (mkWorld [] 0)) as (self & _ & _ & Hocc & _).
    apply Hocc. lia.
  - destruct (X9_QPE_repetitions 2 (-1) (QArith_base.Qmake 1 4) 0%nat
                (mkWorld [] 0)) as (self & _ & _ & _ & Hnone).
    apply Hnone. lia.
Defined.

Lemma QPE_algorithm_run (n : Z) (theta : QArith_base.Q) (eigenstate_x : bool)
    (r : Z) (draw : bool) (w : world) :
  n <= 1024 ->
  exists self w',
    QuantumPhaseEstimation.init n theta = Ok self
    /\ QuantumPhaseEstimation.algorithm self eigenstate_x r draw w
       = (Ok (length (heap w)), w')
    /\ heap w' !! length (heap w)
       = Some (mkCircuit (n + 1) n
                 (QPE_circuit (TwoPiTimes theta) n eigenstate_x r)).
Proof.
  intros Hn.
  set (self := (<["angle" := VAngle (TwoPiTimes theta)]>
                  (<["n_counting_qubits" := VInt n]> ∅) : instance)).
  assert (Ha : self !! "angle" = Some (VAngle (TwoPiTimes theta)))
    by (subst self; by rewrite lookup_insert_eq).
  assert (Hnc : self !! "n_counting_qubits" = Some (VInt n)).
  { subst self. rewrite lookup_insert_ne by discriminate.
    by rewrite lookup_insert_eq. }
  exists self. eexists. split; [reflexivity|].
  unfold QuantumPhaseEstimation.algorithm.
  erewrite bind_Ok by (unfold attr_int, getattr; rewrite Hnc; reflexivity).
  py_new. py_loop.
  erewrite (bind_Ok _ _ _ tt
              (emit_all (length (heap w))
                        (if eigenstate_x then [X n] else []) _)).
  2: { destruct eigenstate_x; [apply emit_emit_all|].
       unfold ret. by rewrite emit_all_nil. }
  erewrite bind_Ok by (by apply QPE_controlled_U_from).
  py_emit.
  erewrite bind_Ok.
  2: { unfold QuantumPhaseEstimation.qft_inverse. py_loop.
       erewrite bind_Ok
         by (apply QPE_inverse_blocks_loop; unfold float_max_exp; lia).
       unfold ret. rewrite emit_all_app. reflexivity. }
  py_emit. py_loop. unfold ret.
  rewrite !emit_all_app. split; [reflexivity|].
  apply heap_fresh_emit_all.
Qed.

(** ** Quantum Phase Estimation: the controlled phases of the whole circuit *)

Lemma occurrences_none (g : instruction) (gs : list instruction) :
  Forall (fun g' => g' <> g) gs -> occurrences g gs = 0%nat.
Proof.
  unfold occurrences. induction 1 as [|g' gs Hg' _ IH]; [done|].
  by rewrite filter_cons_False.
Qed.

Lemma occurrences_no_phase_onto (a : angle) (i n : Z)
    (gs : list instruction) :
  Forall (no_phase_onto n) gs -> occurrences (CP a i n) gs = 0%nat.
Proof.
  intros Hgs. apply occurrences_none. eapply Forall_impl; [exact Hgs|].
  intros g Hg ->. simpl in Hg. done.
Qed.

(** C7: [QuantumPhaseEstimation] stores the angle 2*pi*theta, and for
    [n >= 0] counting qubits the circuit that [algorithm()] with the default
    [repetitions = 1] builds holds the controlled phase of that angle from
    counting qubit [i] onto the eigenstate qubit [n] exactly [2^i] times for
    each [i < n], the repetition count doubling after each counting qubit:
    they come right after the Hadamard gates, counting qubit by counting
    qubit, and no later gate of the circuit is a controlled phase onto qubit
    [n].  Up to 1024 counting qubits the circuit is returned and is
    [QPE_circuit]. *)
Theorem C7_controlled_U_doubling (n : Z) (theta : QArith_base.Q) (w : world) :
  let a := TwoPiTimes theta in
  exists self,
    QuantumPhaseEstimation.init n theta = Ok self
    /\ getattr self "angle" = Ok (VAngle a)
    /\ (forall c w0,
          QuantumPhaseEstimation.controlled_U self c n 1 w0
          = (Ok (2 ^ Z.max 0 n), emit_all c (QPE_controlled_U_layer a n) w0))
    /\ (0 <= n ->
        exists r w',
          QuantumPhaseEstimation.algorithm_default self w = (r, w')
          /\ (exists rest,
                gates_of w' (length (heap w))
                = map H (range n) ++ QPE_controlled_U_layer a n
                  ++ Barrier :: rest
                /\ Forall (no_phase_onto n) rest)
          /\ (forall i, 0 <= i < n ->
                occurrences (CP a i n) (gates_of w' (length (heap w)))
                = Z.to_nat (2 ^ i))
          /\ (n <= 1024 ->
                r = Ok (length (heap w))
                /\ gates_of w' (length (heap w)) = QPE_circuit a n false 1)).
Proof.
  intros a.
  set (self := (<["angle" := VAngle a]>
                  (<["n_counting_qubits" := VInt n]> ∅) : instance)).
  assert (Ha : self !! "angle" = Some (VAngle a))
    by (subst self; by rewrite lookup_insert_eq).
  assert (Hn : self !! "n_counting_qubits" = Some (VInt n)).
  { subst self. rewrite lookup_insert_ne by discriminate.
    by rewrite lookup_insert_eq. }
  assert (Hrun : exists r w' rest,
            QuantumPhaseEstimation.algorithm_default self w = (r, w')
            /\ gates_of w' (length (heap w))
               = map H (range n) ++ QPE_controlled_U_layer a n
                 ++ Barrier :: rest
            /\ Forall (no_phase_onto n) rest).
  { unfold QuantumPhaseEstimation.algorithm_default,
      QuantumPhaseEstimation.algorithm.
    erewrite bind_Ok by (unfold attr_int, getattr; rewrite Hn; reflexivity).
    py_new. py_loop. erewrite bind_Ok by reflexivity.
    erewrite bind_Ok by (by apply QPE_controlled_U_ok).
    py_emit.
    match goal with
    | |- context [bind (QuantumPhaseEstimation.qft_inverse ?c ?n) _ ?w0] =>
        destruct (QPE_qft_inverse_emits c n w0) as (r & gs & Hr & Hres & Hgs)
    end.
    destruct Hres as [-> | [e ->]].
    - erewrite bind_Ok by exact Hr. py_emit. py_loop. unfold ret.
      do 3 eexists. split; [reflexivity|].
      rewrite !emit_all_app, gates_of_fresh. split; [reflexivity|].
      apply Forall_app_2; [done|]. apply Forall_app_2; [by repeat constructor|].
      apply Forall_map_range. by intros q _.
    - erewrite bind_Raise by exact Hr.
      do 3 eexists. split; [reflexivity|].
      rewrite !emit_all_app, gates_of_fresh. split; [reflexivity|]. done. }
  destruct Hrun as (r & w' & rest & Hrun & Hgates & Hrest).
  exists self. split; [reflexivity|]. split.
  { unfold getattr. by rewrite Ha. }
  split. { intros c w0. by apply QPE_controlled_U_ok. }
  intros Hn0. exists r, w'.
  split; [exact Hrun|]. split; [by exists rest|]. split.
  - intros i Hi. rewrite Hgates, !occurrences_app.
    rewrite (occurrences_no_phase_onto a i n (map H (range n)))
      by (apply Forall_map_range; by intros q _).
    rewrite (occurrences_no_phase_onto a i n (Barrier :: rest))
      by (by constructor).
    unfold QPE_controlled_U_layer.
    rewrite (occurrences_layer a n i (fun j => Z.to_nat (2 ^ j)))
      by apply NoDup_seqZ.
    rewrite decide_True by (by apply elem_of_range). lia.
  - intros Hn1024.
    destruct (QPE_algorithm_run n theta false 1 false w ltac:(lia))
      as (self' & w'' & Hinit & Halg & Hheap).
    injection Hinit as <-.
    unfold QuantumPhaseEstimation.algorithm_default in Hrun.
    fold a self in Halg. rewrite Halg in Hrun. injection Hrun as <- <-.
    split; [done|]. unfold gates_of. by rewrite Hheap.
Qed.

Lemma C7_controlled_U_doubling_witness :
  exists self w',
    QuantumPhaseEstimation.init 2 (QArith_base.Qmake 1 4) = Ok self
    /\ QuantumPhaseEstimation.algorithm_default self (mkWorld [] 0)
       = (Ok 0%nat, w')
    /\ occurrences (CP (TwoPiTimes (QArith_base.Qmake 1 4)) 0 2)
         (gates_of w' 0%nat) = 1%nat
    /\ occurrences (CP (TwoPiTimes (QArith_base.Qmake 1 4)) 1 2)
         (gates_of w' 0%nat) = 2%nat.
Proof.
  destruct (C7_controlled_U_doubling 2 (QArith_base.Qmake 1 4) (mkWorld [] 0))
    as (self & Hinit & _ & _ & Hcircuit).
  destruct (Hcircuit ltac:(lia)) as (r & w' & Hrun & _ & Hocc & Hret).
  destruct (Hret ltac:(lia)) as [-> _].
  exists self, w'. split; [exact Hinit|]. split; [exact Hrun|].
  split; [exact (Hocc 0 ltac:(lia)) | exact (Hocc 1 ltac:(lia))].
Defined.

Lemma QPE_circuit_in_circuit (a : angle) (n : Z) (eigenstate_x : bool)
    (r : Z) :
  0 <= n ->
  Forall (in_circuit (n + 1) n) (QPE_circuit a n eigenstate_x r).
Proof.
  intros Hn. unfold QPE_circuit. apply Forall_app_2; [in_circuit_list|].
  apply Forall_app_2; [destruct eigenstate_x; in_circuit_list|].
  apply Forall_app_2.
  { unfold QPE_controlled_U_layer_from. apply Forall_concat_map.
    intros i Hi. apply elem_of_range in Hi.
    apply Forall_replicate. simpl. lia. }
  apply Forall_app_2; [in_circuit_list|].
  apply Forall_app_2; [|in_circuit_list].
  unfold QPE_qft_inverse_gates. apply Forall_app_2.
  - in_circuit_list.
    match goal with Hq : 0 <= ?q < n / 2 |- _ =>
      pose proof (below_half n q Hq) end.
    lia.
  - apply Forall_concat_map. intros j Hj. apply elem_of_range in Hj.
    unfold QPE_inverse_block. in_circuit_list.
Qed.

(** X10: for [0 <= n <= 1024] counting qubits and any [eigenstate_x],
    [repetitions] and [draw], [QuantumPhaseEstimation.algorithm] returns a
    fresh circuit of [n + 1] qubits and [n] classical bits, and every
    instruction on it lies inside that circuit: qubit indices at most [n],
    measured bits below [n], and two-qubit gates on distinct qubits. *)
Theorem X10_QPE_instructions_in_circuit (n : Z) (theta : QArith_base.Q)
    (eigenstate_x : bool) (r : Z) (draw : bool) (w : world) :
  0 <= n <= 1024 ->
  exists self w' circ,
    QuantumPhaseEstimation.init n theta = Ok self
    /\ QuantumPhaseEstimation.algorithm self eigenstate_x r draw w
       = (Ok (length (heap w)), w')
    /\ heap w' !! length (heap w) = Some circ
    /\ num_qubits circ = n + 1 /\ num_clbits circ = n
    /\ Forall (in_circuit (num_qubits circ) (num_clbits circ)) (data circ).
Proof.
  intros Hn.
  destruct (QPE_algorithm_run n theta eigenstate_x r draw w ltac:(lia))
    as (self & w' & Hi & Ha & Hc).
  exists self, w'. eexists. split; [done|]. split; [done|].
  split; [exact Hc|]. split; [done|]. split; [done|].
  apply QPE_circuit_in_circuit. lia.
Qed.

Lemma X10_QPE_instructions_in_circuit_witness :
  exists self w' circ,
    QuantumPhaseEstimation.init 2 (QArith_base.Qmake 1 4) = Ok self
    /\ QuantumPhaseEstimation.algorithm self true 1 false (mkWorld [] 0)
       = (Ok 0%nat, w')
    /\ heap w' !! 0%nat = Some circ
    /\ num_qubits circ = 2 + 1 /\ num_clbits circ = 2
    /\ Forall (in_circuit (num_qubits circ) (num_clbits circ)) (data circ).
Proof.
  apply (X10_QPE_instructions_in_circuit 2 (QArith_base.Qmake 1 4) true 1
           false (mkWorld [] 0)). lia.
Defined.

(** ** Deutsch-Jozsa: what the oracle is made of *)

Lemma pos_bin_acc (p : positive) (acc : list ascii) :
  DeutschJozsa.pos_bin p acc = DeutschJozsa.pos_bin p [] ++ acc.
Proof.
  revert acc. induction p as [p IH|p IH|]; intros acc; simpl.
  - rewrite (IH ("1"%char :: acc)), (IH ["1"%char]).
    by rewrite <- app_assoc.
  - rewrite (IH ("0"%char :: acc)), (IH ["0"%char]).
    by rewrite <- app_assoc.
  - reflexivity.
Qed.

Lemma pos_bin_xO (p : positive) :
  DeutschJozsa.pos_bin (xO p) [] = DeutschJozsa.pos_bin p [] ++ ["0"%char].
Proof. simpl. apply pos_bin_acc. Qed.

Lemma pos_bin_xI (p : positive) :
  DeutschJozsa.pos_bin (xI p) [] = DeutschJozsa.pos_bin p [] ++ ["1"%char].
Proof. simpl. apply pos_bin_acc. Qed.

(** The digits start with a '1'. *)
Lemma pos_bin_head (p : positive) :
  exists tl, DeutschJozsa.pos_bin p [] = "1"%char :: tl.
Proof.
  induction p as [p [tl IH]|p [tl IH]|].
  - rewrite pos_bin_xI, IH. by eexists.
  - rewrite pos_bin_xO, IH. by eexists.
  - by exists [].
Qed.

(** Digit [j] from the end is bit [j] of the number. *)
Lemma pos_bin_lookup (p : positive) : forall j : nat,
  (j < length (DeutschJozsa.pos_bin p []))%nat ->
  reverse (DeutschJozsa.pos_bin p []) !! j
  = Some (bit_char (Z.testbit (Z.pos p) (Z.of_nat j))).
Proof.
  induction p as [p IH|p IH|]; intros j Hj.
  - rewrite pos_bin_xI, reverse_app in *. rewrite length_app in Hj.
    simpl in Hj. destruct j as [|j]; [done|].
    change (reverse ["1"%char]) with ["1"%char].
    rewrite lookup_app_r by (simpl; lia).
    replace (S j - length ["1"%char])%nat with j by (simpl; lia).
    rewrite IH by lia. rewrite Nat2Z.inj_succ, Pos2Z.inj_xI.
    by rewrite Z.testbit_odd_succ by lia.
  - rewrite pos_bin_xO, reverse_app in *. rewrite length_app in Hj.
    simpl in Hj. destruct j as [|j]; [done|].
    change (reverse ["0"%char]) with ["0"%char].
    rewrite lookup_app_r by (simpl; lia).
    replace (S j - length ["0"%char])%nat with j by (simpl; lia).
    rewrite IH by lia. rewrite Nat2Z.inj_succ, Pos2Z.inj_xO.
    by rewrite Z.testbit_even_succ by lia.
  - simpl in Hj. destruct j as [|j]; [done|lia].
Qed.

(** Above the digits every bit is clear. *)
Lemma pos_bin_high_bits (p : positive) : forall j : nat,
  (length (DeutschJozsa.pos_bin p []) <= j)%nat ->
  Z.testbit (Z.pos p) (Z.of_nat j) = false.
Proof.
  induction p as [p IH|p IH|]; intros j Hj.
  - rewrite pos_bin_xI, length_app in Hj. simpl in Hj.
    destruct j as [|j]; [lia|].
    rewrite Nat2Z.inj_succ, Pos2Z.inj_xI.
    rewrite Z.testbit_odd_succ by lia. apply IH. lia.
  - rewrite pos_bin_xO, length_app in Hj. simpl in Hj.
    destruct j as [|j]; [lia|].
    rewrite Nat2Z.inj_succ, Pos2Z.inj_xO.
    rewrite Z.testbit_even_succ by lia. apply IH. lia.
  - simpl in Hj. destruct j as [|j]; [lia|].
    rewrite Nat2Z.inj_succ. change 1 with (2 * 0 + 1).
    rewrite Z.testbit_odd_succ by lia. apply Z.testbit_0_l.
Qed.

(** A number below [2^k] has at most [k] digits. *)
Lemma pos_bin_length (p : positive) : forall k : nat,
  Z.pos p < 2 ^ Z.of_nat k ->
  (length (DeutschJozsa.pos_bin p []) <= k)%nat.
Proof.
  induction p as [p IH|p IH|]; intros k Hk.
  - rewrite pos_bin_xI, length_app. simpl.
    destruct k as [|k]; [simpl in Hk; lia|].
    rewrite Nat2Z.inj_succ, Z.pow_succ_r, Pos2Z.inj_xI in Hk by lia.
    specialize (IH k ltac:(lia)). lia.
  - rewrite pos_bin_xO, length_app. simpl.
    destruct k as [|k]; [simpl in Hk; lia|].
    rewrite Nat2Z.inj_succ, Z.pow_succ_r, Pos2Z.inj_xO in Hk by lia.
    specialize (IH k ltac:(lia)). lia.
  - simpl. destruct k as [|k]; [simpl in Hk; lia|lia].
Qed.

(** [format(b, '0nb')] of a drawn [1 <= b < 2^n]: exactly [n] characters,
    character [q] being bit [n-1-q] of [b]. *)
Lemma format_bin_bits (b n : Z) :
  1 <= b < 2 ^ n -> 0 <= n ->
  exists bs,
    DeutschJozsa.format_bin b n = Ok bs
    /\ Z.of_nat (length bs) = n
    /\ forall q, 0 <= q < n ->
         bs !! Z.to_nat q = Some (bit_char (Z.testbit b (n - 1 - q))).
Proof.
  intros Hb Hn. destruct b as [|p|p]; try lia.
  unfold DeutschJozsa.format_bin.
  destruct (n <? 0) eqn:E; [lia|]. clear E.
  change (Z.pos p <? 0) with false. cbv iota. simpl length.
  set (digits := DeutschJozsa.pos_bin p []).
  assert (HL : (length digits <= Z.to_nat n)%nat).
  { apply pos_bin_length. rewrite Z2Nat.id by lia. lia. }
  eexists. split; [reflexivity|]. split.
  { simpl. rewrite length_app, length_replicate. lia. }
  intros q Hq. simpl.
  destruct (decide (Z.to_nat q < Z.to_nat n - 0 - length digits)%nat)
    as [Hpad|Hpad].
  - rewrite lookup_app_l by (rewrite length_replicate; lia).
    rewrite lookup_replicate_2 by lia.
    replace (n - 1 - q) with (Z.of_nat (Z.to_nat (n - 1 - q))) by lia.
    rewrite pos_bin_high_bits; [done|]. fold digits. lia.
  - rewrite lookup_app_r by (rewrite length_replicate; lia).
    rewrite length_replicate.
    pose proof (pos_bin_lookup p (Z.to_nat (n - 1 - q))) as Hlk.
    fold digits in Hlk. rewrite reverse_lookup in Hlk by lia.
    rewrite Z2Nat.id in Hlk by lia. rewrite <- Hlk by lia.
    f_equal. lia.
Qed.

Lemma concat_map_if_filter (P : Z -> bool) (f : Z -> instruction)
    (l : list Z) :
  concat (map (fun q => if P q then [f q] else []) l)
  = map f (filter (fun q => P q) l).
Proof.
  induction l as [|q l IH]; [done|]. simpl. rewrite IH.
  destruct (P q) eqn:E.
  - rewrite filter_cons_True by (by rewrite E). reflexivity.
  - rewrite filter_cons_False by (rewrite E; simpl; tauto). reflexivity.
Qed.

(** The wrap loop on the string that [format] made of the drawn [b]. *)
Lemma DJ_place_x_gates_wrap (c : ref) (b n : Z) (bs : list ascii) w :
  Z.of_nat (length bs) = n ->
  (forall q, 0 <= q < n ->
     bs !! Z.to_nat q = Some (bit_char (Z.testbit b (n - 1 - q)))) ->
  DeutschJozsa.place_x_gates c bs w = (Ok tt, emit_all c (DJ_wrap n b) w).
Proof.
  intros Hlen Hbits. unfold DeutschJozsa.place_x_gates, DJ_wrap.
  rewrite Hlen. rewrite <- concat_map_if_filter.
  apply for_each_emit. intros q w0 Hq. apply elem_of_range in Hq.
  erewrite bind_Ok
    by (unfold lift; rewrite (getitem_lookup bs q _ ltac:(lia) (Hbits q Hq));
        reflexivity).
  destruct (Z.testbit b (n - 1 - q)); simpl.
  - apply emit_emit_all.
  - unfold ret. by rewrite emit_all_nil.
Qed.

(** A number from 1 on has a set bit, so the wrap is not empty. *)
Lemma DJ_wrap_nonempty (n b : Z) : 1 <= b < 2 ^ n -> 0 <= n -> DJ_wrap n b <> [].
Proof.
  intros Hb Hn Hnil.
  destruct (format_bin_bits b n Hb Hn) as (bs & Hf & Hlen & Hbits).
  destruct b as [|p|p]; try lia.
  unfold DeutschJozsa.format_bin in Hf.
  destruct (n <? 0) eqn:E; [lia|]. clear E.
  change (Z.pos p <? 0) with false in Hf. cbv iota in Hf.
  injection Hf as Hbs. simpl in Hbs.
  destruct (pos_bin_head p) as [tl Htl]. rewrite Htl in Hbs.
  set (pad := (Z.to_nat n - 0 - length ("1"%char :: tl))%nat) in Hbs.
  assert (Hpad : bs !! pad = Some "1"%char).
  { rewrite <- Hbs. rewrite lookup_app_r by (rewrite length_replicate; lia).
    by rewrite length_replicate, Nat.sub_diag. }
  assert (Hlt : (pad < length bs)%nat) by (by eapply lookup_lt_Some).
  specialize (Hbits (Z.of_nat pad) ltac:(lia)).
  rewrite Nat2Z.id, Hpad in Hbits.
  assert (Hbit : Z.testbit (Z.pos p) (n - 1 - Z.of_nat pad) = true).
  { destruct (Z.testbit (Z.pos p) (n - 1 - Z.of_nat pad)); [done|].
    discriminate Hbits. }
  unfold DJ_wrap in Hnil. apply fmap_nil_inv in Hnil.
  assert (Hin : Z.of_nat pad ∈ filter
            (fun q => Z.testbit (Z.pos p) (n - 1 - q)) (range n)).
  { apply list_elem_of_filter. split; [by rewrite Hbit|].
    apply elem_of_range. lia. }
  rewrite Hnil in Hin. by apply not_elem_of_nil in Hin.
Qed.

Lemma bind_draw_lift_Ok {A B} (f : Z -> result A * Z) (k : A -> Py B)
    w a g' :
  f (np_random w) = (Ok a, g') ->
  bind (bind (draw f) lift) k w = k a (mkWorld (heap w) g').
Proof. intros Hf. unfold bind, draw, lift. by rewrite Hf. Qed.

Lemma bind_draw_lift_Raise {A B} (f : Z -> result A * Z) (k : A -> Py B)
    w e g' :
  f (np_random w) = (Raise e, g') ->
  bind (bind (draw f) lift) k w = (Raise e, mkWorld (heap w) g').
Proof. intros Hf. unfold bind, draw, lift. by rewrite Hf. Qed.

Lemma gates_of_fresh_rng nq nc h g g' gs :
  gates_of (emit_all (length h) gs
              (mkWorld (heap (mkWorld (h ++ [mkCircuit nq nc []]) g)) g'))
           (length h) = gs.
Proof. apply gates_of_fresh. Qed.

Section DJOracleShape.
Variable randint : Z -> Z -> Z -> result Z * Z.

(** X11: for [num_bits >= 0] the constant oracle is decided by one draw of
    [np.random.randint(2)]: the gate returned has [num_bits + 1] qubits and
    holds a single X on the output qubit [num_bits] when the draw is 1 and
    nothing otherwise; it never touches an input qubit, and it raises only
    what the draw raises. *)
Theorem X11_DJ_constant_oracle (num_bits : Z) (w : world) :
  0 <= num_bits ->
  exists self,
    DeutschJozsa.init "constant" num_bits = Ok self
    /\ (DeutschJozsa.oracle randint self w).1
       = match (randint 0 2 (np_random w)).1 with
         | Ok output =>
             Ok (mkGate "Oracle" (num_bits + 1)
                   (if output =? 1 then [X num_bits] else []))
         | Raise e => Raise e
         end.
Proof.
  intros _. eexists. split; [reflexivity|].
  unfold DeutschJozsa.oracle. py_attr. py_new. py_attr.
  rewrite bool_decide_eq_true_2 by done.
  destruct (randint 0 2 (np_random w)) as [[output|e] g'] eqn:Hd.
  - erewrite bind_Ok.
    2: { erewrite bind_draw_lift_Ok by exact Hd.
         instantiate (1 := emit_all (length (heap w))
                             (if output =? 1 then [X num_bits] else []) _).
         destruct (output =? 1); [apply emit_emit_all|].
         unfold ret. by rewrite emit_all_nil. }
    py_attr. rewrite bool_decide_eq_false_2 by discriminate.
    erewrite bind_Ok by reflexivity. cbn [fst].
    by rewrite gates_of_fresh.
  - erewrite bind_Raise; [reflexivity|].
    by erewrite bind_draw_lift_Raise by exact Hd.
Qed.

(** X12: the balanced oracle on [num_bits >= 1] inputs, when
    [np.random.randint(1, 2**num_bits)] draws [b] in that range: the gate
    returned holds an X on every input qubit [q] whose bit [num_bits-1-q]
    of [b] is set, then a CNOT from each input qubit onto the output qubit,
    then the same X-gates again; at least one input qubit is wrapped. *)
Theorem X12_DJ_balanced_oracle (num_bits b g' : Z) (w : world) :
  0 <= num_bits -> 1 <= b < 2 ^ num_bits ->
  randint 1 (2 ^ num_bits) (np_random w) = (Ok b, g') ->
  exists self w',
    DeutschJozsa.init "balanced" num_bits = Ok self
    /\ DeutschJozsa.oracle randint self w
       = (Ok (mkGate "Oracle" (num_bits + 1)
                (DJ_balanced_definition num_bits b)), w')
    /\ np_random w' = g'
    /\ DJ_wrap num_bits b <> []
    /\ Forall (in_circuit (num_bits + 1) 0)
              (DJ_balanced_definition num_bits b).
Proof.
  intros Hn Hb Hdraw.
  destruct (format_bin_bits b num_bits Hb Hn) as (bs & Hf & Hlen & Hbits).
  eexists. eexists. split; [reflexivity|]. split; [|split; [|split]].
  - unfold DeutschJozsa.oracle. py_attr. py_new. py_attr.
    rewrite bool_decide_eq_false_2 by discriminate.
    erewrite bind_Ok by reflexivity. py_attr.
    rewrite bool_decide_eq_true_2 by done.
    erewrite bind_Ok.
    2: { erewrite bind_draw_lift_Ok by exact Hdraw.
         erewrite bind_Ok by (unfold lift; rewrite Hf; reflexivity).
         erewrite bind_Ok by (by apply DJ_place_x_gates_wrap).
         py_loop. by apply DJ_place_x_gates_wrap. }
    rewrite !emit_all_app.
    first [rewrite gates_of_fresh_rng | cbn [heap]; rewrite gates_of_fresh].
    reflexivity.
  - reflexivity.
  - by apply DJ_wrap_nonempty.
  - unfold DJ_balanced_definition, DJ_wrap.
    assert (Hwrap : Forall (in_circuit (num_bits + 1) 0)
              (map X (filter (fun q => Z.testbit b (num_bits - 1 - q))
                             (range num_bits)))).
    { apply Forall_fmap, Forall_forall. intros q Hq.
      apply list_elem_of_filter in Hq as [_ Hq].
      apply elem_of_range in Hq. simpl. lia. }
    apply Forall_app_2; [done|]. apply Forall_app_2; [|done].
    in_circuit_list.
Qed.
End DJOracleShape.

Lemma X11_DJ_constant_oracle_witness :
  exists self,
    DeutschJozsa.init "constant" 2 = Ok self
    /\ (DeutschJozsa.oracle counter_randint self (mkWorld [] 5)).1
       = match (counter_randint 0 2 (np_random (mkWorld [] 5))).1 with
         | Ok output =>
             Ok (mkGate "Oracle" (2 + 1)
                   (if output =? 1 then [X 2] else []))
         | Raise e => Raise e
         end.
Proof.
  apply (X11_DJ_constant_oracle counter_randint 2 (mkWorld [] 5)). lia.
Defined.

Lemma X12_DJ_balanced_oracle_witness :
  exists self w',
    DeutschJozsa.init "balanced" 2 = Ok self
    /\ DeutschJozsa.oracle counter_randint self (mkWorld [] 4)
       = (Ok (mkGate "Oracle" (2 + 1) (DJ_balanced_definition 2 2)), w')
    /\ np_random w' = 5
    /\ DJ_wrap 2 2 <> []
    /\ Forall (in_circuit (2 + 1) 0) (DJ_balanced_definition 2 2).
Proof.
  apply (X12_DJ_balanced_oracle counter_randint 2 2 5 (mkWorld [] 4));
    [lia | simpl; lia | reflexivity].
Defined.

Lemma bind_Ok_inv {A B} (m : Py A) (k : A -> Py B) w b w' :
  bind m k w = (Ok b, w') ->
  exists a w1, m w = (Ok a, w1) /\ k a w1 = (Ok b, w').
Proof.
  unfold bind. destruct (m w) as [[a|e] w1]; [eauto|discriminate].
Qed.

(** Every gate [DeutschJozsa.oracle] returns is named 'Oracle' and has
    [num_bits + 1] qubits. *)
Lemma DJ_oracle_gate_size (randint : Z -> Z -> Z -> result Z * Z)
    (self : instance) (num_bits : Z) (w w' : world) (g : Gate) :
  self !! "num_bits" = Some (VInt num_bits) ->
  DeutschJozsa.oracle randint self w = (Ok g, w') ->
  gate_name g = "Oracle" /\ gate_num_qubits g = num_bits + 1.
Proof.
  intros Hnb Ho. unfold DeutschJozsa.oracle in Ho.
  erewrite bind_Ok in Ho
    by (unfold attr_int, getattr; rewrite Hnb; reflexivity).
  apply bind_Ok_inv in Ho as (c & w1 & _ & Ho).
  apply bind_Ok_inv in Ho as (ty & w2 & _ & Ho).
  apply bind_Ok_inv in Ho as (? & w3 & _ & Ho).
  apply bind_Ok_inv in Ho as (ty' & w4 & _ & Ho).
  apply bind_Ok_inv in Ho as (? & w5 & _ & Ho).
  injection Ho as <- _. by split.
Qed.

(** X13: [DeutschJozsa.algorithm] composes with [DeutschJozsa.oracle]: for
    [num_bits >= 0], given any gate the instance's own [oracle()] returned,
    it appends that gate exactly once, after the Hadamard gates and the
    preparation of the output qubit, on the qubits [0, ..., num_bits], which
    are as many as the gate has. *)
Theorem X13_DJ_algorithm_appends_oracle
    (randint : Z -> Z -> Z -> result Z * Z)
    (type : string) (num_bits : Z) (self : instance) (w w' : world)
    (g : Gate) :
  0 <= num_bits ->
  DeutschJozsa.init type num_bits = Ok self ->
  DeutschJozsa.oracle randint self w = (Ok g, w') ->
  DeutschJozsa.algorithm self g
  = Ok (map (fun q => Plain (H q)) (range num_bits)
        ++ [Plain (X num_bits); Plain (H num_bits)]
        ++ [AppendGate g (range (num_bits + 1))]
        ++ map (fun q => Plain (H q)) (range num_bits)
        ++ map (fun i => Plain (Measure i i)) (range num_bits))
  /\ Z.of_nat (length (range (num_bits + 1))) = gate_num_qubits g
  /\ Forall (fun q => 0 <= q < gate_num_qubits g) (range (num_bits + 1))
  /\ NoDup (range (num_bits + 1)).
Proof.
  intros Hn Hi Ho. unfold DeutschJozsa.init in Hi.
  destruct (bool_decide (type = "constant") || bool_decide (type = "balanced"));
    [|discriminate].
  injection Hi as <-.
  assert (Hnb : (<["num_bits" := VInt num_bits]>
                   (<["type" := VStr type]> ∅) : instance) !! "num_bits"
                = Some (VInt num_bits)) by (by rewrite lookup_insert_eq).
  destruct (DJ_oracle_gate_size randint _ num_bits w w' g Hnb Ho)
    as [_ Hsize].
  split; [|split; [|split]].
  - unfold DeutschJozsa.algorithm, getattr. by rewrite Hnb.
  - rewrite Hsize. unfold range. rewrite length_seqZ. lia.
  - rewrite Hsize. apply Forall_forall. intros q Hq.
    by apply elem_of_range in Hq.
  - apply NoDup_seqZ.
Qed.

Lemma X13_DJ_algorithm_appends_oracle_witness :
  DeutschJozsa.algorithm
    (<["num_bits" := VInt 1]> (<["type" := VStr "constant"]> ∅))
    (mkGate "Oracle" 2 [X 1])
  = Ok (map (fun q => Plain (H q)) (range 1)
        ++ [Plain (X 1); Plain (H 1)]
        ++ [AppendGate (mkGate "Oracle" 2 [X 1]) (range (1 + 1))]
        ++ map (fun q => Plain (H q)) (range 1)
        ++ map (fun i => Plain (Measure i i)) (range 1))
  /\ Z.of_nat (length (range (1 + 1)))
     = gate_num_qubits (mkGate "Oracle" 2 [X 1])
  /\ Forall (fun q => 0 <= q < gate_num_qubits (mkGate "Oracle" 2 [X 1]))
            (range (1 + 1))
  /\ NoDup (range (1 + 1)).
Proof.
  apply (X13_DJ_algorithm_appends_oracle counter_randint "constant" 1
           (<["num_bits" := VInt 1]> (<["type" := VStr "constant"]> ∅))
           (mkWorld [] 1)
           (mkWorld [mkCircuit 2 0 [X 1]] 2)
           (mkGate "Oracle" 2 [X 1]));
    [lia | reflexivity | vm_compute; reflexivity].
Defined.

(** ** Simon's problem: the oracle as a whole *)

Lemma draw_eq {A} (f : Z -> A * Z) w :
  draw f w = (Ok (f (np_random w)).1, mkWorld (heap w) (f (np_random w)).2).
Proof. unfold draw. by destruct (f (np_random w)). Qed.

Lemma rfind_from_spec (s : list ascii) (c : ascii) : forall pos last,
  (c ∉ s -> rfind_from s c pos last = last)
  /\ (c ∈ s -> pos <= rfind_from s c pos last < pos + Z.of_nat (length s)).
Proof.
  induction s as [|a s IH]; intros pos last; simpl.
  - split; [done|]. intros Hin. by apply elem_of_nil in Hin.
  - destruct (IH (pos + 1) (if bool_decide (a = c) then pos else last))
      as [Hout Hin].
    split.
    + intros Hnin. apply not_elem_of_cons in Hnin as [Hne Hnin].
      rewrite Hout by done. rewrite bool_decide_eq_false_2; congruence.
    + intros Hc. destruct (decide (c ∈ s)) as [Hs|Hs].
      * specialize (Hin Hs). lia.
      * rewrite Hout by done. apply elem_of_cons in Hc as [->|]; [|done].
        rewrite bool_decide_eq_true_2 by done. lia.
Qed.

Lemma rfind_in_range (s : string) (c : ascii) :
  c ∈ chars s -> 0 <= rfind s c < len s.
Proof.
  intros Hc. unfold rfind, len.
  destruct (rfind_from_spec (chars s) c 0 (-1)) as [_ Hin].
  specialize (Hin Hc). lia.
Qed.

Lemma elem_of_enumerate {A} (l : list A) (idx : Z) (x : A) :
  (idx, x) ∈ enumerate l ->
  0 <= idx < Z.of_nat (length l) /\ x ∈ l.
Proof.
  unfold enumerate. intros Hin.
  apply list_elem_of_lookup in Hin as [k Hk].
  apply lookup_zip_with_Some in Hk as (i & y & Heq & Hi & Hy).
  injection Heq as <- <-. apply lookup_seqZ in Hi as [-> Hlt].
  split; [lia|]. by eapply list_elem_of_lookup_2.
Qed.

(** Step 2 of the oracle: the guard [j != -1] never decides. *)
Lemma Simon_xor_loop (c : ref) (n : Z) (s : string) w :
  for_each (enumerate (chars s)) (fun '(idx, char) =>
    if bool_decide (char = "1"%char) && negb (rfind s "1"%char =? -1)
    then emit c (CX (rfind s "1"%char) (n + idx)) else ret tt) w
  = (Ok tt, emit_all c (Simon_xor_gates n s) w).
Proof.
  unfold Simon_xor_gates. apply for_each_emit. intros [idx ch] w0 Hin.
  apply elem_of_enumerate in Hin as [_ Hch].
  destruct (decide (ch = "1"%char)) as [->|Hne].
  - rewrite bool_decide_eq_true_2 by done.
    pose proof (rfind_in_range s "1"%char Hch) as Hj.
    destruct (rfind s "1" =? -1) eqn:E; [lia|]. simpl.
    apply emit_emit_all.
  - rewrite bool_decide_eq_false_2 by done. simpl.
    unfold ret. by rewrite emit_all_nil.
Qed.

Lemma Simon_xor_gates_shape (n : Z) (s : string) :
  len s = n -> Forall (writes_second_register n) (Simon_xor_gates n s).
Proof.
  intros Hlen. unfold Simon_xor_gates. apply Forall_concat_map.
  intros [idx ch] Hin. apply elem_of_enumerate in Hin as [Hidx Hch].
  case_bool_decide; [|constructor]. subst ch.
  pose proof (rfind_in_range s "1"%char Hch) as Hj.
  unfold len in *. repeat constructor; simpl; lia.
Qed.

Lemma getitem_Ok_lookup {A} (l : list A) (i : Z) (x : A) :
  0 <= i -> getitem l i = Ok x -> l !! Z.to_nat i = Some x.
Proof.
  intros Hi. unfold getitem. destruct (i <? 0) eqn:E; [lia|]. rewrite E.
  destruct (l !! Z.to_nat i); [by intros [= ->]|discriminate].
Qed.

Lemma index_Ok (l : list Z) (x k : Z) :
  index l x = Ok k -> 0 <= k < Z.of_nat (length l) /\ l !! Z.to_nat k = Some x.
Proof.
  unfold index. destruct (list_find (fun y => y = x) l) as [[j y]|] eqn:Hf;
    [|discriminate].
  intros [= <-]. apply list_find_Some in Hf as (Hj & -> & _).
  split; [|by rewrite Nat2Z.id].
  apply lookup_lt_Some in Hj. lia.
Qed.

(** Whatever the lists, the loop only makes swap calls, each on two
    distinct qubits of the second register. *)
Lemma permute_loop_swaps (c : ref) (n : Z) (p : list Z) (fuel : nat) :
  Z.of_nat (length p) = n ->
  forall i ip w, 0 <= i ->
    exists r gs,
      SimonProblem.permute_loop fuel c n p i ip w = (r, emit_all c gs w)
      /\ Forall (second_register_swap n) gs.
Proof.
  intros Hlen. induction fuel as [|fuel IH]; intros i ip w Hi.
  { exists (Ok None), []. simpl. unfold ret. by rewrite emit_all_nil. }
  assert (Hstop : forall (r : result (option (Z * list Z))),
            exists r' gs, (r, w) = (r', emit_all c gs w)
                          /\ Forall (second_register_swap n) gs).
  { intros r. exists r, []. by rewrite emit_all_nil. }
  simpl. destruct (i <? n) eqn:Hlt; [|apply Hstop].
  apply Z.ltb_lt in Hlt.
  rewrite bind_lift. destruct (getitem ip i) as [a|e] eqn:Ha; [|apply Hstop].
  rewrite bind_lift. destruct (getitem p i) as [b|e] eqn:Hb; [|apply Hstop].
  destruct (a =? b) eqn:Hab; cbv beta iota delta [negb].
  { apply IH. lia. }
  apply Z.eqb_neq in Hab.
  rewrite bind_lift. cbv beta iota. rewrite bind_lift.
  destruct (index p a) as [k|e] eqn:Hk; [|apply Hstop].
  apply index_Ok in Hk as [Hkr Hpk].
  apply getitem_Ok_lookup in Hb; [|lia].
  assert (Hik : i <> k) by (intros ->; congruence).
  py_emit.
  assert (Hstop' : forall (r : result (option (Z * list Z))),
            exists r' gs,
              (r, emit_all c [SWAP (n + i) (n + k)] w) = (r', emit_all c gs w)
              /\ Forall (second_register_swap n) gs).
  { intros r. exists r, [SWAP (n + i) (n + k)]. split; [done|].
    repeat constructor; simpl; lia. }
  rewrite bind_lift.
  destruct (getitem ip k) as [at_k|e]; [|apply Hstop'].
  rewrite bind_lift. cbv beta iota. rewrite bind_lift.
  destruct (setitem ip i at_k) as [ip1|e]; [|apply Hstop'].
  rewrite bind_lift.
  destruct (setitem ip1 k a) as [ip2|e]; [|apply Hstop'].
  destruct (IH i ip2 (emit_all c [SWAP (n + i) (n + k)] w) Hi)
    as (r & gs & Hr & Hgs).
  exists r, (SWAP (n + i) (n + k) :: gs). rewrite Hr, emit_all_app.
  split; [done|]. constructor; [simpl; lia|done].
Qed.

(** From the identity, on a permutation of [0, ..., n-1], enough fuel ends
    the loop. *)
Lemma permute_loop_from_identity (c : ref) (n : Z) (p : list Z) (fuel : nat)
    (w : world) :
  0 <= n -> p ≡ₚ range n -> (2 * Z.to_nat n < fuel)%nat ->
  exists gs,
    SimonProblem.permute_loop fuel c n p 0 (range n) w
    = (Ok (Some (n, p)), emit_all c gs w)
    /\ Forall (second_register_swap n) gs.
Proof.
  intros Hn Hperm Hfuel.
  assert (Hlen : length p = Z.to_nat n).
  { rewrite Hperm. unfold range. by rewrite length_seqZ. }
  destruct (permute_loop_swaps c n p fuel ltac:(lia) 0 (range n) w
              ltac:(lia)) as (r & gs & Hr & Hgs).
  exists gs. split; [|done]. rewrite Hr. f_equal.
  assert (Hn' : n = Z.of_nat (length p)) by lia.
  assert (Hterm : exists gs',
            SimonProblem.permute_loop fuel c n p 0 (range n) w
            = (Ok (Some (n, p)), emit_all c gs' w)).
  { clear Hr Hgs. rewrite <- Hlen in Hfuel. clear Hlen Hn. subst n.
    change 0 with (Z.of_nat 0). apply permute_loop_terminates.
    - split; [lia|]. split; [unfold range; rewrite length_seqZ; lia|].
      split; [|split].
      + apply NoDup_alt. unfold range. apply NoDup_seqZ.
      + intros j x Hx. rewrite Hperm. by eapply list_elem_of_lookup_2.
      + intros j Hj. simpl in Hj. lia.
    - unfold mismatches.
      pose proof (length_filter
                    (fun j => range (Z.of_nat (length p)) !! j <> p !! j)
                    (seq 0 (length p))) as Hf.
      rewrite length_seq in Hf. lia. }
  destruct Hterm as [gs' Hgs']. rewrite Hr in Hgs'. by injection Hgs'.
Qed.

Lemma bind_assoc {A B C} (m : Py A) (k1 : A -> Py B) (k2 : B -> Py C) w :
  bind (bind m k1) k2 w = bind m (fun a => bind (k1 a) k2) w.
Proof. unfold bind. by destruct (m w) as [[a|e] w']. Qed.

Lemma emit_all_rng (c : ref) (gs0 gs : list instruction) (w : world)
    (g' : Z) :
  emit_all c gs (mkWorld (heap (emit_all c gs0 w)) g')
  = emit_all c (gs0 ++ gs) (mkWorld (heap w) g').
Proof.
  unfold emit_all; simpl. f_equal. rewrite list_alter_alter_eq.
  apply list_alter_ext; [|done]. intros [nq nc d] _.
  unfold append_instructions; simpl. by rewrite app_assoc.
Qed.

Lemma second_register_swap_writes (n : Z) (g : instruction) :
  second_register_swap n g -> writes_second_register n g.
Proof. by destruct g. Qed.

Section SimonOracle.
Variable np_permutation : Z -> Z -> list Z * Z.
Variable np_random_sample : Z -> QArith_base.Q * Z.

(** The random flips: at most one X per qubit of the second register, in
    increasing order. *)
Lemma Simon_flip_loop (c : ref) (n : Z) (l : list Z) :
  (forall i, i ∈ l -> 0 <= i < n) ->
  forall w, exists gs g',
    for_each l (fun i =>
      x <~ draw np_random_sample ;;
      if SimonProblem.gt_half x then emit c (X (n + i)) else ret tt) w
    = (Ok tt, emit_all c gs (mkWorld (heap w) g'))
    /\ gs `sublist_of` map (fun i => X (n + i)) l
    /\ Forall (writes_second_register n) gs.
Proof.
  induction l as [|i l IH]; intros Hl w.
  { exists [], (np_random w). simpl. unfold ret. rewrite emit_all_nil.
    by destruct w. }
  rewrite for_each_cons.
  assert (Hi : 0 <= i < n) by (apply Hl; left).
  assert (Hl' : forall i', i' ∈ l -> 0 <= i' < n)
    by (intros i' Hi'; apply Hl; by right).
  rewrite bind_assoc. erewrite bind_Ok by apply draw_eq.
  destruct (SimonProblem.gt_half (np_random_sample (np_random w)).1).
  - py_emit.
    destruct (IH Hl' (emit_all c [X (n + i)]
                        (mkWorld (heap w) (np_random_sample (np_random w)).2)))
      as (gs & g' & Hrun & Hsub & Hshape).
    exists (X (n + i) :: gs), g'. rewrite Hrun. split; [|split].
    + by rewrite emit_all_rng.
    + simpl. by apply sublist_skip.
    + constructor; [simpl; lia|done].
  - erewrite bind_Ok by reflexivity.
    destruct (IH Hl' (mkWorld (heap w) (np_random_sample (np_random w)).2))
      as (gs & g' & Hrun & Hsub & Hshape).
    exists gs, g'. rewrite Hrun. split; [done|]. split; [|done].
    simpl. by apply sublist_cons.
Qed.

(** One run of [oracle] on the instance made from [s]. *)
Lemma Simon_oracle_run (s : string) (c : ref) (fuel : nat) (w : world) :
  (np_permutation (len s) (np_random w)).1 ≡ₚ range (len s) ->
  (2 * Z.to_nat (len s) < fuel)%nat ->
  exists swaps flips g',
    SimonProblem.oracle np_permutation np_random_sample fuel
      (<["n" := VInt (len s)]> (<["b" := VStr s]> ∅)) c w
    = (Ok (Some c),
       emit_all c (Simon_copy_gates (len s) ++ Simon_xor_gates (len s) s
                   ++ swaps ++ flips) (mkWorld (heap w) g'))
    /\ Forall (writes_second_register (len s)) swaps
    /\ Forall (writes_second_register (len s)) flips
    /\ flips `sublist_of` map (fun i => X (len s + i)) (range (len s))
    /\ Forall (second_register_swap (len s)) swaps.
Proof.
  intros Hperm Hfuel. assert (Hn : 0 <= len s) by (unfold len; lia).
  unfold SimonProblem.oracle. py_attr. py_loop. py_attr.
  erewrite bind_Ok by apply Simon_xor_loop.
  erewrite bind_Ok by apply draw_eq.
  rewrite !emit_all_app. cbn [np_random emit_all].
  match goal with
  | |- context [bind (SimonProblem.permute_loop fuel c (len s) ?p 0 _) _ ?w0] =>
      destruct (permute_loop_from_identity c (len s) p fuel w0 Hn Hperm Hfuel)
        as (swaps & Hloop & Hswaps)
  end.
  erewrite bind_Ok by exact Hloop. cbv beta iota.
  match goal with
  | |- context [bind (for_each (range (len s)) ?body) _ ?w0] =>
      destruct (Simon_flip_loop c (len s) (range (len s))
                  (fun i Hi => proj1 (elem_of_range _ _) Hi) w0)
        as (flips & g' & Hflips & Hsub & Hshape)
  end.
  erewrite bind_Ok by exact Hflips. unfold ret.
  exists swaps, flips, g'.
  split; [|by repeat split;
             try (eapply Forall_impl;
                  [exact Hswaps|apply second_register_swap_writes])].
  f_equal.
  rewrite (emit_all_rng c swaps flips
             (mkWorld (heap (emit_all c
                (map (fun x => CX x (len s + x)) (range (len s))
                 ++ Simon_xor_gates (len s) s) w))
                (np_permutation (len s) (np_random w)).2) g').
  cbn [heap].
  rewrite (emit_all_rng c
             (map (fun x => CX x (len s + x)) (range (len s))
              ++ Simon_xor_gates (len s) s) (swaps ++ flips) w g').
  unfold Simon_copy_gates. by rewrite <- !app_assoc.
Qed.
End SimonOracle.

Lemma Simon_copy_gates_shape (n : Z) :
  Forall (writes_second_register n) (Simon_copy_gates n).
Proof.
  unfold Simon_copy_gates. apply Forall_map_range. intros i Hi. simpl. lia.
Qed.

Lemma writes_second_register_in_circuit (n nc : Z) (g : instruction) :
  writes_second_register n g -> in_circuit (n * 2) nc g.
Proof. destruct g; simpl; try done; lia. Qed.



(** X15: [SimonProblem.oracle] leaves the first register alone: under the
    same condition, every gate it adds either is a CNOT controlled by a
    qubit of the first register onto a qubit of the second, or a swap of two
    distinct qubits of the second register, or an X on a qubit of the second
    register. *)
Theorem X15_Simon_oracle_first_register
    (np_permutation : Z -> Z -> list Z * Z)
    (np_random_sample : Z -> QArith_base.Q * Z)
    (s : string) (c : ref) (fuel : nat) (w : world) :
  (c < length (heap w))%nat ->
  (np_permutation (len s) (np_random w)).1 ≡ₚ range (len s) ->
  (2 * Z.to_nat (len s) < fuel)%nat ->
  exists self added w',
    SimonProblem.init s = Ok self
    /\ SimonProblem.oracle np_permutation np_random_sample fuel self c w
       = (Ok (Some c), w')
    /\ gates_of w' c = gates_of w c ++ added
    /\ Forall (writes_second_register (len s)) added.
Proof.
  intros Hc Hperm Hfuel.
  destruct (Simon_oracle_run np_permutation np_random_sample s c fuel w
              Hperm Hfuel) as (swaps & flips & g' & Hrun & Hsw & Hfl & _).
  eexists. eexists. eexists. split; [reflexivity|].
  split; [exact Hrun|]. split.
  - rewrite gates_of_emit_all_valid by done. reflexivity.
  - apply Forall_app_2; [apply Simon_copy_gates_shape|].
    apply Forall_app_2; [by apply Simon_xor_gates_shape|].
    by apply Forall_app_2.
Qed.

Lemma X15_Simon_oracle_first_register_witness :
  exists self added w',
    SimonProblem.init "11" = Ok self
    /\ SimonProblem.oracle counter_permutation counter_random_sample 5 self
         0%nat (mkWorld [mkCircuit 4 2 []] 1)
       = (Ok (Some 0%nat), w')
    /\ gates_of w' 0%nat
       = gates_of (mkWorld [mkCircuit 4 2 []] 1) 0%nat ++ added
    /\ Forall (writes_second_register (len "11")) added.
Proof.
  apply (X15_Simon_oracle_first_register counter_permutation
           counter_random_sample "11" 0%nat 5 (mkWorld [mkCircuit 4 2 []] 1)).
  - simpl. lia.
  - change (range (len "11")) with [0; 1].
    change ((counter_permutation (len "11")
               (np_random (mkWorld [mkCircuit 4 2 []] 1))).1) with [1; 0].
    apply perm_swap.
  - simpl. lia.
Defined.

(** X16: under the same condition, [SimonProblem.algorithm] returns a fresh
    circuit of [2n] qubits and [n] classical bits that holds the Hadamard
    gates on the first register, a barrier, the oracle's gates, a barrier,
    the Hadamard gates again and the measurements of the first register;
    every instruction lies inside that circuit. *)
Theorem X16_Simon_algorithm_circuit
    (np_permutation : Z -> Z -> list Z * Z)
    (np_random_sample : Z -> QArith_base.Q * Z)
    (s : string) (draw : bool) (fuel : nat) (w : world) :
  (np_permutation (len s) (np_random w)).1 ≡ₚ range (len s) ->
  (2 * Z.to_nat (len s) < fuel)%nat ->
  exists self oracle_gates w' circ,
    SimonProblem.init s = Ok self
    /\ SimonProblem.algorithm np_permutation np_random_sample fuel self draw w
       = (Ok (Some (length (heap w))), w')
    /\ heap w' !! length (heap w) = Some circ
    /\ num_qubits circ = len s * 2 /\ num_clbits circ = len s
    /\ data circ
       = map H (range (len s)) ++ [Barrier] ++ oracle_gates ++ [Barrier]
         ++ map H (range (len s))
         ++ map (fun q => Measure q q) (range (len s))
    /\ Forall (writes_second_register (len s)) oracle_gates
    /\ Forall (in_circuit (num_qubits circ) (num_clbits circ)) (data circ).
Proof.
  intros Hperm Hfuel. assert (Hn : 0 <= len s) by (unfold len; lia).
  destruct (Simon_oracle_run np_permutation np_random_sample s
              (length (heap w)) fuel
              (emit_all (length (heap w)) [Barrier]
                 (emit_all (length (heap w)) (map H (range (len s)))
                    (mkWorld (heap w ++ [mkCircuit (len s * 2) (len s) []])
                             (np_random w))))
              Hperm Hfuel) as (swaps & flips & g' & Hrun & Hsw & Hfl & _).
  assert (Hog : Forall (writes_second_register (len s))
                  (Simon_copy_gates (len s) ++ Simon_xor_gates (len s) s
                   ++ swaps ++ flips)).
  { apply Forall_app_2; [apply Simon_copy_gates_shape|].
    apply Forall_app_2; [by apply Simon_xor_gates_shape|].
    by apply Forall_app_2. }
  eexists.
  exists (Simon_copy_gates (len s) ++ Simon_xor_gates (len s) s
          ++ swaps ++ flips).
  eexists. eexists. split; [reflexivity|].
  split.
  { unfold SimonProblem.algorithm. py_attr. py_new. py_loop. py_emit.
    erewrite bind_Ok by exact Hrun. cbv beta iota.
    py_emit. py_loop. py_loop. unfold ret. reflexivity. }
  rewrite !emit_all_app. cbn [heap emit_all].
  rewrite !list_alter_alter_eq.
  rewrite list_lookup_alter_eq.
  rewrite lookup_app_r, Nat.sub_diag by lia. cbn [lookup list_lookup fmap option_fmap option_map].
  split; [reflexivity|].
  cbn [num_qubits num_clbits data append_instructions compose].
  rewrite app_nil_l.
  split; [done|]. split; [done|]. split; [by rewrite <- !app_assoc|].
  split; [done|].
  assert (Himpl : forall l, Forall (writes_second_register (len s)) l ->
                    Forall (in_circuit (len s * 2) (len s)) l).
  { intros l Hl. eapply Forall_impl; [exact Hl|]. intros g.
    apply writes_second_register_in_circuit. }
  rewrite !Forall_app. rewrite !Forall_app in Hog.
  destruct Hog as (Hcopy & Hxor & Hswaps & Hflips).
  repeat split; try (by apply Himpl); in_circuit_list.
Qed.

Lemma X16_Simon_algorithm_circuit_witness :
  exists self oracle_gates w' circ,
    SimonProblem.init "11" = Ok self
    /\ SimonProblem.algorithm counter_permutation counter_random_sample 5
         self false (mkWorld [] 1)
       = (Ok (Some 0%nat), w')
    /\ heap w' !! 0%nat = Some circ
    /\ num_qubits circ = len "11" * 2 /\ num_clbits circ = len "11"
    /\ data circ
       = map H (range (len "11")) ++ [Barrier] ++ oracle_gates ++ [Barrier]
         ++ map H (range (len "11"))
         ++ map (fun q => Measure q q) (range (len "11"))
    /\ Forall (writes_second_register (len "11")) oracle_gates
    /\ Forall (in_circuit (num_qubits circ) (num_clbits circ)) (data circ).
Proof.
  apply (X16_Simon_algorithm_circuit counter_permutation
           counter_random_sample "11" false 5 (mkWorld [] 1)).
  - change (range (len "11")) with [0; 1].
    change ((counter_permutation (len "11") (np_random (mkWorld [] 1))).1)
      with [1; 0].
    apply perm_swap.
  - simpl. lia.
Defined.

(** ** Simon's problem: [bdotz] on strings of different lengths *)

Lemma bdotz_loop_prefix (b z : list ascii) (k : nat) :
  Forall (fun c => c = "0"%char \/ c = "1"%char) (take k b) ->
  Forall (fun c => c = "0"%char \/ c = "1"%char) (take k z) ->
  (k <= length b)%nat -> (k <= length z)%nat ->
  fold_left (fun (acc : result Z) (i : Z) =>
      rbind acc (fun accum =>
      rbind (getitem b i) (fun bi =>
      rbind (int_of_char bi) (fun bv =>
      rbind (getitem z i) (fun zi =>
      rbind (int_of_char zi) (fun zv =>
      Ok (accum + bv * zv)))))))
    (seqZ 0 (Z.of_nat k)) (Ok 0)
  = Ok (inner_product (take k b) (take k z)).
Proof.
  induction k as [|k IH]; intros Hb Hz Hkb Hkz; [reflexivity|].
  destruct (lookup_lt_is_Some_2 b k ltac:(lia)) as [x Hx].
  destruct (lookup_lt_is_Some_2 z k ltac:(lia)) as [y Hy].
  rewrite (take_S_r b k x Hx) in *. rewrite (take_S_r z k y Hy) in *.
  apply Forall_app in Hb as [Hb Hbx]. apply Forall_app in Hz as [Hz Hzy].
  rewrite seqZ_S, fold_left_app, IH by (done || lia). simpl.
  rewrite Z.add_0_l.
  rewrite (getitem_lookup b _ x) by (lia || by rewrite Nat2Z.id). simpl.
  rewrite int_of_char_bit by (by inversion Hbx).
  simpl. rewrite (getitem_lookup z _ y) by (lia || by rewrite Nat2Z.id).
  simpl. rewrite int_of_char_bit by (by inversion Hzy).
  simpl. rewrite inner_product_snoc; [done|].
  rewrite !length_take. lia.
Qed.

Lemma fold_left_Raise (f : result Z -> Z -> result Z) (l : list Z) (e : exn) :
  (forall i, f (Raise e) i = Raise e) -> fold_left f l (Raise e) = Raise e.
Proof. intros Hf. induction l as [|i l IH]; simpl; [done|]. by rewrite Hf. Qed.

(** X17: when [z] is shorter than [b], both made of bits, [bdotz(b, z)]
    raises IndexError: the loop runs over the positions of [b] and reads
    [z] past its end. *)
Theorem X17_bdotz_short_z (b z : string) :
  is_bitstring b -> is_bitstring z -> len z < len b ->
  SimonProblem.bdotz b z = Raise IndexError.
Proof.
  intros Hb Hz Hlen. unfold is_bitstring, len in *.
  unfold SimonProblem.bdotz, range, len.
  replace (Z.of_nat (length (chars b)))
    with (Z.of_nat (length (chars z))
          + (Z.of_nat (length (chars b)) - Z.of_nat (length (chars z))))
    by lia.
  rewrite seqZ_app by lia. rewrite fold_left_app.
  rewrite (bdotz_loop_prefix (chars b) (chars z) (length (chars z)))
    by (lia || by apply Forall_take).
  rewrite seqZ_cons by lia. cbn [fold_left rbind]. rewrite Z.add_0_l.
  destruct (lookup_lt_is_Some_2 (chars b) (length (chars z)) ltac:(lia))
    as [x Hx].
  rewrite (getitem_lookup (chars b) _ x) by (lia || by rewrite Nat2Z.id).
  cbn [rbind].
  rewrite int_of_char_bit
    by (rewrite Forall_forall in Hb; apply Hb;
        by eapply list_elem_of_lookup_2).
  cbn [rbind].
  rewrite (getitem_out_of_range (chars z)) by lia. cbn [rbind].
  by rewrite fold_left_Raise.
Qed.

Lemma X17_bdotz_short_z_witness :
  SimonProblem.bdotz "110" "01" = Raise IndexError.
Proof.
  apply (X17_bdotz_short_z "110" "01");
    [bitstring_literal | bitstring_literal | reflexivity].
Defined.

(** X18: when [z] is at least as long as [b], [bdotz(b, z)] reads only the
    first [len(b)] characters of [z]: it returns the inner product of [b]
    with that prefix modulo 2, whatever follows in [z]. *)
Theorem X18_bdotz_long_z (b z : string) :
  is_bitstring b ->
  Forall (fun c => c = "0"%char \/ c = "1"%char)
         (take (length (chars b)) (chars z)) ->
  len b <= len z ->
  SimonProblem.bdotz b z
  = Ok (inner_product (chars b) (take (length (chars b)) (chars z)) mod 2).
Proof.
  intros Hb Hz Hlen. unfold is_bitstring, len in *.
  unfold SimonProblem.bdotz, range, len.
  rewrite (bdotz_loop_prefix (chars b) (chars z) (length (chars b)))
    by (lia || done || by apply Forall_take).
  simpl. by rewrite (take_ge (chars b)) by lia.
Qed.

Lemma X18_bdotz_long_z_witness :
  SimonProblem.bdotz "11" "10xyz"
  = Ok (inner_product (chars "11") (take (length (chars "11")) (chars "10xyz"))
        mod 2).
Proof.
  apply (X18_bdotz_long_z "11" "10xyz");
    [ bitstring_literal
    | change (take (length (chars "11")) (chars "10xyz"))
        with (chars "10"); bitstring_literal
    | vm_compute; discriminate ].
Defined.

Lemma inner_product_comm (b z : list ascii) :
  inner_product b z = inner_product z b.
Proof.
  unfold inner_product. f_equal. revert z.
  induction b as [|x b IH]; intros [|y z]; simpl; try done.
  rewrite IH. f_equal. lia.
Qed.

(** X19: on bit strings of equal length [bdotz] is symmetric:
    [bdotz(b, z)] and [bdotz(z, b)] return the same bit. *)
Theorem X19_bdotz_symmetric (b z : string) :
  len b = len z -> is_bitstring b -> is_bitstring z ->
  SimonProblem.bdotz b z = SimonProblem.bdotz z b
  /\ exists bit, SimonProblem.bdotz b z = Ok bit /\ (bit = 0 \/ bit = 1).
Proof.
  intros Hlen Hb Hz. unfold is_bitstring, len in *.
  assert (Hbz : SimonProblem.bdotz b z
                = Ok (inner_product (chars b) (chars z) mod 2)).
  { unfold SimonProblem.bdotz, range, len.
    rewrite (bdotz_loop (chars b) (chars z) (length (chars b)))
      by (done || lia).
    simpl. by rewrite !take_ge by lia. }
  assert (Hzb : SimonProblem.bdotz z b
                = Ok (inner_product (chars z) (chars b) mod 2)).
  { unfold SimonProblem.bdotz, range, len.
    rewrite (bdotz_loop (chars z) (chars b) (length (chars z)))
      by (done || lia).
    simpl. by rewrite !take_ge by lia. }
  split.
  - by rewrite Hbz, Hzb, inner_product_comm.
  - eexists. split; [exact Hbz|].
    pose proof (Z.mod_pos_bound (inner_product (chars b) (chars z)) 2
                  ltac:(lia)). lia.
Qed.

Lemma X19_bdotz_symmetric_witness :
  SimonProblem.bdotz "110" "011" = SimonProblem.bdotz "011" "110"
  /\ exists bit, SimonProblem.bdotz "110" "011" = Ok bit
                 /\ (bit = 0 \/ bit = 1).
Proof.
  apply (X19_bdotz_symmetric "110" "011");
    [reflexivity | bitstring_literal | bitstring_literal].
Defined.

(** X20: a character of [b] that is not a decimal digit makes [bdotz]
    raise ValueError at the first position that holds one, when the
    positions before it hold bits in both strings; [b[i]] is converted
    before [z[i]] is read, so this happens even when [z] ends there. *)
Theorem X20_bdotz_not_a_digit (b z : string) (k : nat) (c : ascii) :
  Forall (fun ch => ch = "0"%char \/ ch = "1"%char) (take k (chars b)) ->
  Forall (fun ch => ch = "0"%char \/ ch = "1"%char) (take k (chars z)) ->
  (k <= length (chars z))%nat ->
  chars b !! k = Some c ->
  int_of_char c = Raise ValueError ->
  SimonProblem.bdotz b z = Raise ValueError.
Proof.
  intros Hb Hz Hkz Hc Hint.
  assert (Hkb : (k < length (chars b))%nat) by (by eapply lookup_lt_Some).
  unfold SimonProblem.bdotz, range, len.
  replace (Z.of_nat (length (chars b)))
    with (Z.of_nat k + (Z.of_nat (length (chars b)) - Z.of_nat k)) by lia.
  rewrite seqZ_app by lia. rewrite fold_left_app.
  rewrite (bdotz_loop_prefix (chars b) (chars z) k) by (done || lia).
  rewrite seqZ_cons by lia. cbn [fold_left rbind]. rewrite Z.add_0_l.
  rewrite (getitem_lookup (chars b) _ c) by (lia || by rewrite Nat2Z.id).
  cbn [rbind]. rewrite Hint. cbn [rbind].
  by rewrite fold_left_Raise.
Qed.

Lemma X20_bdotz_not_a_digit_witness :
  SimonProblem.bdotz "1x" "1" = Raise ValueError.
Proof.
  apply (X20_bdotz_not_a_digit "1x" "1" 1 "x"%char).
  - change (take 1 (chars "1x")) with (chars "1"). bitstring_literal.
  - change (take 1 (chars "1")) with (chars "1"). bitstring_literal.
  - simpl. lia.
  - reflexivity.
  - reflexivity.
Defined.

(** ** The backend selection of Deutsch-Jozsa *)

Lemma backends_total (f : backend -> bool) (l : list backend) :
  backends (fun x => Ok (f x)) l = Ok (filter (fun x => f x) l).
Proof.
  induction l as [|x l IH]; [done|]. simpl. rewrite IH. simpl.
  destruct (f x) eqn:E.
  - rewrite filter_cons_True by (by rewrite E). reflexivity.
  - rewrite filter_cons_False by (rewrite E; simpl; tauto). reflexivity.
Qed.

(** X21: on every [DeutschJozsa] instance the backend filter of
    [run_quantum_hardware] never raises, and the selection keeps, in the
    provider's order, exactly the backends that have at least
    [num_bits + 1] qubits, are not simulators and are operational. *)
Theorem X21_DJ_backend_selection (type : string) (num_bits : Z)
    (self : instance) (provider : list backend) :
  DeutschJozsa.init type num_bits = Ok self ->
  backends (DeutschJozsa.backend_filter self) provider
  = Ok (filter (fun x => (num_bits + 1 <=? n_qubits x)
                         && negb (simulator x) && operational x)
               provider).
Proof.
  unfold DeutschJozsa.init. intros Hi.
  destruct (bool_decide (type = "constant") || bool_decide (type = "balanced"));
    [|discriminate].
  injection Hi as <-.
  rewrite <- backends_total.
  assert (Hf : forall x,
            DeutschJozsa.backend_filter
              (<["num_bits" := VInt num_bits]> (<["type" := VStr type]> ∅)) x
            = Ok ((num_bits + 1 <=? n_qubits x)
                  && negb (simulator x) && operational x)).
  { intros x. unfold DeutschJozsa.backend_filter. attr_lookup.
    unfold and_then. rewrite Z.geb_leb.
    destruct (num_bits + 1 <=? n_qubits x); [|reflexivity].
    destruct (negb (simulator x)); reflexivity. }
  induction provider as [|x l IH]; [reflexivity|].
  simpl. by rewrite Hf, IH.
Qed.

Lemma X21_DJ_backend_selection_witness :
  backends (DeutschJozsa.backend_filter
              (<["num_bits" := VInt 2]> (<["type" := VStr "balanced"]> ∅)))
    [mkBackend 5 false true; mkBackend 2 false true; mkBackend 32 true true;
     mkBackend 7 false false; mkBackend 3 false true]
  = Ok (filter (fun x => (2 + 1 <=? n_qubits x)
                         && negb (simulator x) && operational x)
          [mkBackend 5 false true; mkBackend 2 false true;
           mkBackend 32 true true; mkBackend 7 false false;
           mkBackend 3 false true]).
Proof.
  apply (X21_DJ_backend_selection "balanced" 2). reflexivity.
Defined.
